(** * h4r-heartbeat: the snow overlay, the screen sequencer and the logo timeline

    A shallow embedding of [src/script.js] (particle field, timed sequence
    between the two screens, load gating) and of [src/main.js] (scene
    graph, GSAP timeline, render loop), with the properties the
    specification states about them.

    Numbers.  JavaScript numbers are IEEE doubles.  They are modelled by
    exact rationals [Q]: the properties below are about comparisons,
    assignments of literals and interval membership, not about rounding.
    [Math.PI] is the rational value of the double.

    Randomness.  [Math.random()] is modelled by a stream [random : nat -> Q]
    (the value of the i-th call) and a call counter threaded through the
    code, so every function stays executable. *)

From Stdlib Require Import QArith Qabs Lqa Lia ZArith String.
From stdpp Require Import base tactics option list.

Open Scope Q_scope.

(** ** Comparisons of numbers *)

(** [a < b] as a boolean; the source's [a > b] is [Qltb b a]. *)
Definition Qltb (a b : Q) : bool := negb (Qle_bool b a).

(** ** The particle field of script.js *)

Module Snow.

(** A flake, as the object literal of [createFlake] builds it. *)
Record flake : Type := mkFlake {
  x : Q;
  y : Q;
  radius : Q;
  speedY : Q;
  speedX : Q;
  alpha : Q
}.

Definition set_x (f : flake) (v : Q) : flake :=
  mkFlake v (y f) (radius f) (speedY f) (speedX f) (alpha f).

Definition set_y (f : flake) (v : Q) : flake :=
  mkFlake (x f) v (radius f) (speedY f) (speedX f) (alpha f).

(** One [ctx.arc] call of the draw step, with the [globalAlpha] in force. *)
Record circle : Type := mkCircle {
  cx : Q;
  cy : Q;
  cr : Q;
  calpha : Q
}.

(** The module-level variables of script.js that the field uses: [width],
    [height], the array [flakes], what has been painted on the canvas
    since the last [clearRect], and the number of [Math.random()] calls
    made so far. *)
Record world : Type := mkWorld {
  width : Q;
  height : Q;
  flakes : list flake;
  canvas : list circle;
  calls : nat
}.

Definition set_flakes (w : world) (fs : list flake) : world :=
  mkWorld (width w) (height w) fs (canvas w) (calls w).

Definition set_canvas (w : world) (cs : list circle) : world :=
  mkWorld (width w) (height w) (flakes w) cs (calls w).

Definition set_calls (w : world) (n : nat) : world :=
  mkWorld (width w) (height w) (flakes w) (canvas w) n.

Definition maxFlakes : nat := 140.

Section Field.

(** [random i] is what the i-th call of [Math.random()] returns. *)
Variable random : nat -> Q.

(** Code that calls [Math.random()]: a state monad over the call counter. *)
Definition Rand (A : Type) : Type := nat -> A * nat.

#[local] Instance Rand_ret : MRet Rand := fun A a n => (a, n).
#[local] Instance Rand_bind : MBind Rand :=
  fun A B k m n => let '(a, n') := m n in k a n'.

Definition Math_random : Rand Q := fun n => (random n, S n).

(** [createFlake(extraBurst)]: the properties of the literal are evaluated
    in order; [Math.random() * height] is only evaluated when [extraBurst]
    is false. *)
Definition createFlake (wd ht : Q) (extraBurst : bool) : Rand flake :=
  r1 ← Math_random;
  fy ← (if extraBurst then mret (ht * 0.4)
        else r ← Math_random; mret (r * ht));
  r3 ← Math_random;
  r4 ← Math_random;
  r5 ← Math_random;
  r6 ← Math_random;
  mret (mkFlake
          (r1 * wd)
          fy
          (if extraBurst then 1 + r3 * 2 else 0.6 + r3 * 1.8)
          (0.5 + r4 * 1.5 + (if extraBurst then 1.2 else 0))
          ((r5 - 0.5) * 0.4)
          (0.4 + r6 * 0.6)).

(** [flakes.push(createFlake(false))] *)
Definition push_flake (w : world) : world :=
  let '(f, n) := createFlake (width w) (height w) false (calls w) in
  set_calls (set_flakes w (flakes w ++ [f])) n.

(** The initial fill: [for (i = 0; i < maxFlakes; i++) flakes.push(...)]. *)
Fixpoint fill (k : nat) (w : world) : world :=
  match k with
  | O => w
  | S k' => fill k' (push_flake w)
  end.

Definition init (wd ht : Q) : world :=
  fill maxFlakes (mkWorld wd ht [] [] 0).

(** The "Move" lines: [f.y += f.speedY; f.x += f.speedX]. *)
Definition move (f : flake) : flake :=
  let f := set_y f (y f + speedY f) in
  set_x f (x f + speedX f).

(** The two side tests, one after the other as in the source. *)
Definition wrap (wd : Q) (f : flake) : flake :=
  let f := if Qltb (wd + 5) (x f) then set_x f (-5) else f in
  if Qltb (x f) (-5) then set_x f (wd + 5) else f.

Definition arc (f : flake) : circle :=
  mkCircle (x f) (y f) (radius f) (alpha f).

(** The flake put at the top when one leaves through the bottom:
    [flakes[i] = createFlake(false); flakes[i].y = -5]. *)
Definition recycled (w : world) : flake * nat :=
  let '(g, n) := createFlake (width w) (height w) false (calls w) in
  (set_y g (-5), n).

(** Body of the loop of [drawSnow] for index [i], where [f] is the object
    [flakes[i]] refers to on entry.  [f] is mutated in place, so the
    array sees the moved and wrapped flake, unless the bottom test has
    replaced the array slot by a new object: then the side tests still
    act on the old object [f], which is the one drawn, and the slot keeps
    the new flake. *)
Definition drawSnow_body (i : nat) (f : flake) (w : world) : world :=
  let f := move f in
  let w := set_flakes w (<[i := f]> (flakes w)) in
  if Qltb (height w) (y f) then
    let '(g, n) := recycled w in
    let w := set_calls (set_flakes w (<[i := g]> (flakes w))) n in
    let f := wrap (width w) f in
    set_canvas w (canvas w ++ [arc f])
  else
    let f := wrap (width w) f in
    let w := set_flakes w (<[i := f]> (flakes w)) in
    set_canvas w (canvas w ++ [arc f]).

(** [for (let i = 0; i < flakes.length; i++)]: the test is the lookup; the
    fuel only makes the recursion structural ([drawSnow_spec] shows that
    with the length of the array as fuel every slot is visited). *)
Fixpoint drawSnow_loop (fuel i : nat) (w : world) : world :=
  match fuel with
  | O => w
  | S fuel' =>
      match flakes w !! i with
      | None => w
      | Some f => drawSnow_loop fuel' (S i) (drawSnow_body i f w)
      end
  end.

(** One call of [drawSnow]: [clearRect], then the loop.  (The call ends by
    asking for the next animation frame; frames are the [Tick] events
    below.) *)
Definition drawSnow (w : world) : world :=
  drawSnow_loop (length (flakes w)) 0 (set_canvas w []).

(** One iteration of the loop of [burstIceShards]: [createFlake(true)] is
    evaluated first, then the five properties of the second literal, which
    [Object.assign] copies over the first object; [alpha] is the only
    property that survives from [createFlake]. *)
Definition burst_one (w : world) : world :=
  let m : Rand flake :=
    base ← createFlake (width w) (height w) true;
    r1 ← Math_random;
    r2 ← Math_random;
    r3 ← Math_random;
    r4 ← Math_random;
    r5 ← Math_random;
    mret (mkFlake
            (width w / 2 + (r1 - 0.5) * (width w * 0.15))
            (height w / 2 + (r2 - 0.5) * (height w * 0.15))
            (1 + r5 * 2)
            (1 + r4 * 3)
            ((r3 - 0.5) * 3)
            (alpha base)) in
  let '(f, n) := m (calls w) in
  set_calls (set_flakes w (flakes w ++ [f])) n.

Fixpoint burst_loop (k : nat) (w : world) : world :=
  match k with
  | O => w
  | S k' => burst_loop k' (burst_one w)
  end.

Definition burstIceShards (w : world) : world := burst_loop 60 w.

(** The resize listener. *)
Definition resize (wd ht : Q) (w : world) : world :=
  mkWorld wd ht (flakes w) (canvas w) (calls w).

(** What can happen to the field after the script has loaded: an animation
    frame runs [drawSnow], the sequencer calls [burstIceShards], the
    window is resized. *)
Inductive event : Type :=
  | Tick
  | Burst
  | Resize (wd ht : Q).

Definition step (w : world) (e : event) : world :=
  match e with
  | Tick => drawSnow w
  | Burst => burstIceShards w
  | Resize wd ht => resize wd ht w
  end.

Definition run (es : list event) (w : world) : world := fold_left step es w.

(** The slot of a flake after the pass: moved and wrapped when it is still
    above the bottom, a new flake at the top otherwise, made from calls of
    [Math.random()] that come after the first [n0]. *)
Definition slot_after (wd ht : Q) (n0 : nat) (f g : flake) : Prop :=
  (y f + speedY f <= ht /\ g = wrap wd (move f)) \/
  (ht < y f + speedY f /\
   exists n : nat, (n0 <= n)%nat /\
     g = set_y (fst (createFlake wd ht false n)) (-5)).

(** [Math.random()] returns a number in [0, 1). *)
Definition unit_range : Prop :=
  forall i : nat, 0 <= random i /\ random i < 1.

End Field.

(** The bounds of the field: [x] in [-5, width + 5], [y] in [-5, height]. *)
Definition within (wd ht : Q) (f : flake) : bool :=
  Qle_bool (-5) (x f) && Qle_bool (x f) (wd + 5) &&
  Qle_bool (-5) (y f) && Qle_bool (y f) ht.

Definition in_bounds (w : world) : bool :=
  forallb (within (width w) (height w)) (flakes w).

(** A flake that is not above the top of the field and does not go up. *)
Definition falling (f : flake) : Prop := -5 <= y f /\ 0 <= speedY f.

(** A world whose window has a size and whose flakes all fall. *)
Definition sound (w : world) : Prop :=
  0 <= width w /\ 0 <= height w /\ Forall falling (flakes w).

(** The window around the centre where [burstIceShards] puts a shard. *)
Definition near_centre (wd ht : Q) (f : flake) : bool :=
  Qle_bool (wd / 2 - wd * 0.075) (x f) &&
  Qle_bool (x f) (wd / 2 + wd * 0.075) &&
  Qle_bool (ht / 2 - ht * 0.075) (y f) &&
  Qle_bool (y f) (ht / 2 + ht * 0.075).

(** The number of bursts among some events. *)
Fixpoint bursts (es : list event) : nat :=
  match es with
  | [] => 0
  | Burst :: es' => S (bursts es')
  | _ :: es' => bursts es'
  end.

(** No resize among the events. *)
Definition settled (es : list event) : bool :=
  forallb (fun e => match e with Resize _ _ => false | _ => true end) es.

(** A window has a width and a height that are not negative. *)
Definition sized (es : list event) : bool :=
  forallb (fun e => match e with
                    | Resize wd ht => Qle_bool 0 wd && Qle_bool 0 ht
                    | _ => true
                    end) es.

(** The ranges of the fields of a flake of the initial fill. *)
Definition ambient_like (wd ht : Q) (f : flake) : Prop :=
  0 <= x f <= wd /\ 0 <= y f <= ht /\
  0.6 <= radius f < 2.4 /\ 0.5 <= speedY f < 2 /\
  -0.2 <= speedX f < 0.2 /\ 0.4 <= alpha f < 1.

(** The ranges of the radius, speeds and alpha of a shard of a burst. *)
Definition shard_like (f : flake) : Prop :=
  1 <= radius f < 3 /\ 1 <= speedY f < 4 /\
  -1.5 <= speedX f < 1.5 /\ 0.4 <= alpha f < 1.

(** A flake that is not above the top of the field and goes down by at
    least half a pixel a frame. *)
Definition brisk (f : flake) : Prop := -5 <= y f /\ 0.5 <= speedY f.

Definition lively (w : world) : Prop :=
  0 <= width w /\ 0 <= height w /\ Forall brisk (flakes w).

(** A flake that is below the bottom of the field once it has moved, and
    the number of such flakes in a list. *)
Definition leaves (ht : Q) (f : flake) : bool := Qltb ht (y f + speedY f).

Definition leaving (ht : Q) (l : list flake) : nat :=
  length (List.filter (leaves ht) l).

End Snow.

(** ** The sequence between the two screens (script.js, "Transition logic") *)

Module Sequencer.

(** A [classList]: the tokens in the order they were added. *)
Definition classList : Type := list string.

Definition has (c : string) (l : classList) : bool :=
  existsb (String.eqb c) l.

(** [classList.add(c)] *)
Definition add (c : string) (l : classList) : classList :=
  if has c l then l else l ++ [c].

(** [classList.remove(c1, c2, ...)] *)
Definition remove (cs : list string) (l : classList) : classList :=
  List.filter (fun c => negb (has c cs)) l.

(** The three elements the script drives: their class lists and the inline
    [style.opacity] of the two images ([None]: never set by the script). *)
Record dom : Type := mkDom {
  overlay : classList;
  christmasLogo : classList;
  dayScreen : classList;
  christmasLogo_opacity : option string;
  dayScreen_opacity : option string
}.

(** The four arrow functions given to [setTimeout] in [startSequence], from
    the outermost to the innermost. *)
Inductive callback : Type :=
  | Explode
  | ShowIcy
  | FadeOut
  | Restart.

Record timer : Type := mkTimer {
  due : Z;
  action : callback
}.

(** The page: the DOM, the particle field, the clock in milliseconds and
    the timers that have been set and have not fired yet, in the order of
    the [setTimeout] calls. *)
Record page : Type := mkPage {
  elements : dom;
  snow : Snow.world;
  now : Z;
  timers : list timer
}.

(** Durations (ms) *)
Definition SHOW_CHRISTMAS : Z := 4500.
Definition EXPLODE_DURATION : Z := 900.
Definition SHOW_ICY : Z := 5000.
Definition LOOP_PAUSE : Z := 1000.

Definition resetStates (d : dom) : dom :=
  mkDom (remove ["exploding"; "icy"]%string (overlay d))
        (remove ["shake"; "breathe"]%string (christmasLogo d))
        (remove ["breathe"]%string (dayScreen d))
        (Some "1"%string)
        (Some "0"%string).

Definition set_elements (p : page) (d : dom) : page :=
  mkPage d (snow p) (now p) (timers p).

Definition setTimeout (c : callback) (delay : Z) (p : page) : page :=
  mkPage (elements p) (snow p) (now p)
         (timers p ++ [mkTimer (now p + delay)%Z c]).

Section Sequence.

Variable random : nat -> Q.

(** The synchronous part of [startSequence]. *)
Definition startSequence (p : page) : page :=
  let d := resetStates (elements p) in
  let d := mkDom (overlay d) (add "breathe" (christmasLogo d)) (dayScreen d)
                 (christmasLogo_opacity d) (dayScreen_opacity d) in
  setTimeout Explode SHOW_CHRISTMAS (set_elements p d).

(** The bodies of the four timer callbacks. *)
Definition fire (c : callback) (p : page) : page :=
  match c with
  | Explode =>
      let d := elements p in
      let d := mkDom (add "exploding" (overlay d))
                     (add "shake" (christmasLogo d)) (dayScreen d)
                     (christmasLogo_opacity d) (dayScreen_opacity d) in
      let p := mkPage d (Snow.burstIceShards random (snow p))
                      (now p) (timers p) in
      setTimeout ShowIcy EXPLODE_DURATION p
  | ShowIcy =>
      let d := elements p in
      let d := mkDom (add "icy" (overlay d))
                     (remove ["breathe"]%string (christmasLogo d))
                     (add "breathe" (dayScreen d))
                     (christmasLogo_opacity d) (dayScreen_opacity d) in
      setTimeout FadeOut SHOW_ICY (set_elements p d)
  | FadeOut =>
      let d := elements p in
      let d := mkDom (overlay d) (christmasLogo d)
                     (remove ["breathe"]%string (dayScreen d))
                     (christmasLogo_opacity d) (Some "0"%string) in
      setTimeout Restart LOOP_PAUSE (set_elements p d)
  | Restart => startSequence p
  end.

(** The first timer, in the order the timers were set, among those with
    the smallest due time not after [t]; with what is left of the list. *)
Fixpoint next_due (t : Z) (l : list timer) : option (timer * list timer) :=
  match l with
  | [] => None
  | a :: l' =>
      match next_due t l' with
      | Some (b, rest) =>
          if (due a <=? due b)%Z && (due a <=? t)%Z
          then Some (a, l') else Some (b, a :: rest)
      | None => if (due a <=? t)%Z then Some (a, l') else None
      end
  end.

(** The event loop up to time [t]: timers fire at their due time, one
    after the other.  [None] when [fuel] callbacks were not enough. *)
Fixpoint advance (fuel : nat) (t : Z) (p : page) : option page :=
  match next_due t (timers p) with
  | None => Some (mkPage (elements p) (snow p) (Z.max (now p) t) (timers p))
  | Some (tm, rest) =>
      match fuel with
      | O => None
      | S fuel' =>
          advance fuel' t
            (fire (action tm)
                  (mkPage (elements p) (snow p) (due tm) rest))
      end
  end.

End Sequence.

(** The states of the specification's table, read off the flags the
    script sets on entry to each of them. *)
Inductive state : Type :=
  | Idle
  | ShowingA
  | Exploding
  | ShowingB
  | FadingOut.

Definition state_of (d : dom) : state :=
  if has "icy" (overlay d) then
    if has "breathe" (dayScreen d) then ShowingB else FadingOut
  else if has "exploding" (overlay d) && has "shake" (christmasLogo d) then
    Exploding
  else if has "breathe" (christmasLogo d) then ShowingA
  else Idle.

(** The state read off the page that the event loop has reached at time
    [t], when 8 timer callbacks are enough to get there. *)
Definition state_at (random : nat -> Q) (t : Z) (p : page) : option state :=
  option_map (fun q => state_of (elements q)) (advance random 8 t p).

(** *** The cycle of the sequence *)

(** The four durations make one cycle; [state_in_cycle off] is the state
    the durations give [off] milliseconds after a start. *)
Definition cycle : Z :=
  (SHOW_CHRISTMAS + EXPLODE_DURATION + SHOW_ICY + LOOP_PAUSE)%Z.

Definition state_in_cycle (off : Z) : state :=
  if (off <? SHOW_CHRISTMAS)%Z then ShowingA
  else if (off <? SHOW_CHRISTMAS + EXPLODE_DURATION)%Z then Exploding
  else if (off <? SHOW_CHRISTMAS + EXPLODE_DURATION + SHOW_ICY)%Z
       then ShowingB
  else FadingOut.


(** *** Load gating (the last lines of script.js) *)

(** What the gating code keeps: whether the two [load] listeners were
    added, the counter [loaded], and how many times the gate has called
    [startSequence]. *)
Record gate : Type := mkGate {
  listening : bool;
  loaded : nat;
  starts : nat
}.

(** The [if]/[else] run when the script is loaded, given the [complete]
    flag of the two images at that time. *)
Definition register (logo_complete day_complete : bool) : gate :=
  if logo_complete && day_complete then mkGate false 0 1
  else mkGate true 0 0.

(** The [load] listener (the same closure for both images). *)
Definition on_load (g : gate) : gate :=
  if listening g then
    let n := S (loaded g) in
    mkGate true n (if Nat.eqb n 2 then S (starts g) else starts g)
  else g.

(** When an image becomes ready, seen from the script: [Before]: it is
    already complete when the script runs, its [load] event has been
    dispatched and is not dispatched again; [After]: it is not complete
    yet and its [load] event is dispatched once, later. *)
Inductive readiness : Type :=
  | Before
  | After.

Definition complete (r : readiness) : bool :=
  match r with Before => true | After => false end.

(** The [load] events dispatched after registration: one per image that
    was not ready, whatever their order (the listener does not look at
    which image it is called for). *)
Definition load_events (logo day : readiness) : nat :=
  (if complete logo then 0 else 1) + (if complete day then 0 else 1).

Definition gate_after (logo day : readiness) : gate :=
  Nat.iter (load_events logo day) on_load
           (register (complete logo) (complete day)).

End Sequencer.

(** ** The logo scene and its timeline (main.js) *)

Module Timeline.

Record vec3 : Type := V3 {
  x : Q;
  y : Q;
  z : Q
}.

(** What the script uses of a three.js object: [position], [scale],
    [rotation] and, for a mesh, the [opacity] of its material ([None] for a
    group, which has no material). *)
Record object3d : Type := Object3D {
  position : vec3;
  scale : vec3;
  rotation : vec3;
  opacity : option Q
}.

(** three.js creates an object at the origin, with scale 1 and no
    rotation, and a material with opacity 1. *)
Definition new_Group : object3d :=
  Object3D (V3 0 0 0) (V3 1 1 1) (V3 0 0 0) None.

Definition new_Mesh : object3d :=
  Object3D (V3 0 0 0) (V3 1 1 1) (V3 0 0 0) (Some 1).

(** The objects of the scene graph, by the name of the constant that
    holds them ([textPlane] and the like are the billboards). *)
Inductive name : Type :=
  | n_fullGroup
  | n_heartGroup
  | n_textGroup
  | n_addonGroup
  | n_glowGroup
  | n_bigHeartPlane
  | n_textPlane
  | n_smallHeartPlane
  | n_glowPlane.

(** The mutable state of main.js: the objects, the object [camState] that
    the timeline tweens, and [camera.position]; [painted] is the camera
    position of the frames rendered so far, latest first. *)
Record scene : Type := Scene {
  fullGroup : object3d;
  heartGroup : object3d;
  textGroup : object3d;
  addonGroup : object3d;
  glowGroup : object3d;
  bigHeartPlane : object3d;
  textPlane : object3d;
  smallHeartPlane : object3d;
  glowPlane : object3d;
  camState : vec3;
  camera : vec3;
  painted : list vec3
}.

Definition get (n : name) (s : scene) : object3d :=
  match n with
  | n_fullGroup => fullGroup s
  | n_heartGroup => heartGroup s
  | n_textGroup => textGroup s
  | n_addonGroup => addonGroup s
  | n_glowGroup => glowGroup s
  | n_bigHeartPlane => bigHeartPlane s
  | n_textPlane => textPlane s
  | n_smallHeartPlane => smallHeartPlane s
  | n_glowPlane => glowPlane s
  end.

Definition put (n : name) (o : object3d) (s : scene) : scene :=
  match n with
  | n_fullGroup =>
      Scene o (heartGroup s) (textGroup s) (addonGroup s) (glowGroup s)
            (bigHeartPlane s) (textPlane s) (smallHeartPlane s) (glowPlane s)
            (camState s) (camera s) (painted s)
  | n_heartGroup =>
      Scene (fullGroup s) o (textGroup s) (addonGroup s) (glowGroup s)
            (bigHeartPlane s) (textPlane s) (smallHeartPlane s) (glowPlane s)
            (camState s) (camera s) (painted s)
  | n_textGroup =>
      Scene (fullGroup s) (heartGroup s) o (addonGroup s) (glowGroup s)
            (bigHeartPlane s) (textPlane s) (smallHeartPlane s) (glowPlane s)
            (camState s) (camera s) (painted s)
  | n_addonGroup =>
      Scene (fullGroup s) (heartGroup s) (textGroup s) o (glowGroup s)
            (bigHeartPlane s) (textPlane s) (smallHeartPlane s) (glowPlane s)
            (camState s) (camera s) (painted s)
  | n_glowGroup =>
      Scene (fullGroup s) (heartGroup s) (textGroup s) (addonGroup s) o
            (bigHeartPlane s) (textPlane s) (smallHeartPlane s) (glowPlane s)
            (camState s) (camera s) (painted s)
  | n_bigHeartPlane =>
      Scene (fullGroup s) (heartGroup s) (textGroup s) (addonGroup s)
            (glowGroup s) o (textPlane s) (smallHeartPlane s) (glowPlane s)
            (camState s) (camera s) (painted s)
  | n_textPlane =>
      Scene (fullGroup s) (heartGroup s) (textGroup s) (addonGroup s)
            (glowGroup s) (bigHeartPlane s) o (smallHeartPlane s) (glowPlane s)
            (camState s) (camera s) (painted s)
  | n_smallHeartPlane =>
      Scene (fullGroup s) (heartGroup s) (textGroup s) (addonGroup s)
            (glowGroup s) (bigHeartPlane s) (textPlane s) o (glowPlane s)
            (camState s) (camera s) (painted s)
  | n_glowPlane =>
      Scene (fullGroup s) (heartGroup s) (textGroup s) (addonGroup s)
            (glowGroup s) (bigHeartPlane s) (textPlane s) (smallHeartPlane s) o
            (camState s) (camera s) (painted s)
  end.

Definition set_camState (v : vec3) (s : scene) : scene :=
  Scene (fullGroup s) (heartGroup s) (textGroup s) (addonGroup s)
        (glowGroup s) (bigHeartPlane s) (textPlane s) (smallHeartPlane s)
        (glowPlane s) v (camera s) (painted s).

Definition set_camera (v : vec3) (s : scene) : scene :=
  Scene (fullGroup s) (heartGroup s) (textGroup s) (addonGroup s)
        (glowGroup s) (bigHeartPlane s) (textPlane s) (smallHeartPlane s)
        (glowPlane s) (camState s) v (painted s).

Definition set_painted (l : list vec3) (s : scene) : scene :=
  Scene (fullGroup s) (heartGroup s) (textGroup s) (addonGroup s)
        (glowGroup s) (bigHeartPlane s) (textPlane s) (smallHeartPlane s)
        (glowPlane s) (camState s) (camera s) l.

(** [obj.position.set(a, b, c)] and the like. *)
Definition position_set (n : name) (a b c : Q) (s : scene) : scene :=
  let o := get n s in
  put n (Object3D (V3 a b c) (scale o) (rotation o) (opacity o)) s.

Definition scale_set (n : name) (a b c : Q) (s : scene) : scene :=
  let o := get n s in
  put n (Object3D (position o) (V3 a b c) (rotation o) (opacity o)) s.

Definition rotation_set (n : name) (a b c : Q) (s : scene) : scene :=
  let o := get n s in
  put n (Object3D (position o) (scale o) (V3 a b c) (opacity o)) s.

(** The scene graph, as the [add] calls build it. *)
Definition children (n : name) : list name :=
  match n with
  | n_fullGroup => [n_heartGroup; n_addonGroup; n_glowGroup]
  | n_heartGroup => [n_bigHeartPlane]
  | n_textGroup => [n_textPlane]
  | n_addonGroup => [n_textGroup; n_smallHeartPlane]
  | n_glowGroup => [n_glowPlane]
  | n_bigHeartPlane | n_textPlane | n_smallHeartPlane | n_glowPlane => []
  end.

(** [obj.traverse]: the object, then its descendants, depth first.  The
    graph is three levels deep below [fullGroup]. *)
Fixpoint traverse (depth : nat) (n : name) : list name :=
  match depth with
  | O => [n]
  | S d => n :: flat_map (traverse d) (children n)
  end.

(** The callback of [setOpacity]: only an object with a material has its
    opacity written. *)
Definition set_material_opacity (value : Q) (s : scene) (n : name) : scene :=
  let o := get n s in
  match opacity o with
  | Some _ => put n (Object3D (position o) (scale o) (rotation o) (Some value)) s
  | None => s
  end.

Definition setOpacity (n : name) (value : Q) (s : scene) : scene :=
  fold_left (set_material_opacity value) (traverse 3 n) s.

(** The scene once the groups are built and stacked (lines 88 to 127),
    with [camState] and the camera as lines 23 and 24 leave them. *)
Definition built : scene :=
  let s := Scene new_Group new_Group new_Group new_Group new_Group
                 new_Mesh new_Mesh new_Mesh new_Mesh
                 (V3 0 0.3 4) (V3 0 0.3 4) [] in
  let s := position_set n_bigHeartPlane 0 0 0 s in
  let s := position_set n_textGroup 0 0 0.01 s in
  let s := position_set n_smallHeartPlane 0 0 0.02 s in
  position_set n_glowGroup 0 0 (-0.05) s.

(** INITIAL STATE (Phase 0 / before loop starts), lines 138 to 172. *)
Definition phase0 (s : scene) : scene :=
  let s := scale_set n_heartGroup 0.8 0.8 0.8 s in
  let s := setOpacity n_heartGroup 0 s in
  let s := scale_set n_textGroup 0.5 0.5 0.5 s in
  let s := setOpacity n_textGroup 0 s in
  let s := scale_set n_smallHeartPlane 1 1 1 s in
  let s := position_set n_smallHeartPlane 2.5 2.5 0.02 s in
  let s := setOpacity n_smallHeartPlane 0 s in
  let s := position_set n_addonGroup 0 0 0 s in
  let s := scale_set n_addonGroup 1 1 1 s in
  let s := setOpacity n_addonGroup 1 s in
  let s := scale_set n_glowGroup 0.6 0.6 0.6 s in
  let s := setOpacity n_glowGroup 0 s in
  let s := rotation_set n_fullGroup 0 0 0 s in
  let s := scale_set n_fullGroup 1 1 1 s in
  let s := set_camState (V3 0 0.3 4) s in
  set_camera (V3 (x (camState s)) (y (camState s)) (z (camState s))) s.

Definition initial : scene := phase0 built.

(** The [onStart] of the last tween (PHASE 7, Reset), lines 422 to 456. *)
Definition reset (s : scene) : scene :=
  let s := scale_set n_heartGroup 0.8 0.8 0.8 s in
  let s := setOpacity n_heartGroup 0 s in
  let s := scale_set n_textGroup 0.5 0.5 0.5 s in
  let s := rotation_set n_textGroup 0 0 0 s in
  let s := setOpacity n_textGroup 0 s in
  let s := position_set n_smallHeartPlane 2.5 2.5 0.02 s in
  let s := rotation_set n_smallHeartPlane 0 0 0 s in
  let s := setOpacity n_smallHeartPlane 0 s in
  let s := position_set n_addonGroup 0 0 0 s in
  let s := scale_set n_addonGroup 1 1 1 s in
  let s := rotation_set n_addonGroup 0 0 0 s in
  let s := setOpacity n_addonGroup 1 s in
  let s := scale_set n_glowGroup 0.6 0.6 0.6 s in
  let s := position_set n_glowGroup 0 0 (-0.05) s in
  let s := setOpacity n_glowGroup 0 s in
  let s := rotation_set n_fullGroup 0 0 0 s in
  let s := scale_set n_fullGroup 1 1 1 s in
  let s := set_camState (V3 0 (y (camState s)) (z (camState s))) s in
  let s := set_camState (V3 (x (camState s)) 0.3 (z (camState s))) s in
  set_camState (V3 (x (camState s)) (y (camState s)) 4) s.

(** A mesh has a material, a group has none. *)
Definition is_mesh (n : name) : bool :=
  match n with
  | n_bigHeartPlane | n_textPlane | n_smallHeartPlane | n_glowPlane => true
  | _ => false
  end.

Definition all_names : list name :=
  [n_fullGroup; n_heartGroup; n_textGroup; n_addonGroup; n_glowGroup;
   n_bigHeartPlane; n_textPlane; n_smallHeartPlane; n_glowPlane].

Definition shaped (s : scene) : bool :=
  forallb (fun n => Bool.eqb (is_mesh n)
                      (match opacity (get n s) with
                       | Some _ => true
                       | None => false
                       end)) all_names.

(** The opacity of an object: the opacities of the materials that
    [setOpacity] writes for it. *)
Definition opacities (n : name) (s : scene) : list Q :=
  omap (fun m => opacity (get m s)) (traverse 3 n).

(** The properties that the phases of the timeline write: vectors of the
    groups and of the small heart and [camState], and opacities. *)
Definition animated (s : scene) : list vec3 * list (list Q) :=
  ([scale (heartGroup s);
    scale (textGroup s); rotation (textGroup s);
    position (smallHeartPlane s); rotation (smallHeartPlane s);
    position (addonGroup s); scale (addonGroup s); rotation (addonGroup s);
    scale (glowGroup s); position (glowGroup s);
    rotation (fullGroup s); scale (fullGroup s);
    camState s],
   [opacities n_heartGroup s; opacities n_textGroup s;
    opacities n_smallHeartPlane s; opacities n_addonGroup s;
    opacities n_glowGroup s]).

(** The render loop: [animate] copies [camState] into the camera and
    renders the frame. *)
Definition animate (s : scene) : scene :=
  let s := set_camera (V3 (x (camState s)) (y (camState s)) (z (camState s))) s in
  set_painted (camera s :: painted s) s.

(** *** The GSAP timeline

    GSAP is a library the page loads; main.js only declares the tweens.
    The definitions below give the tweens as main.js writes them, and the
    part of the documented behaviour of GSAP that runs them: a [to] tween
    records the values of its target when the playhead first reaches it,
    moves the listed properties from the recorded values to the given ones
    along its ease, and ends on the given values; [onStart] is called when
    the tween is first rendered, [onUpdate] each time it is rendered,
    [onComplete] when it ends; the position parameter is the absolute time
    of the start of the tween; with [repeat: -1] the timeline, once at its
    end, puts every tween back at its recorded start values without
    calling anything, and plays again with the same recorded values. *)

Definition Math_PI : Q := 884279719003555 # 281474976710656.

Inductive easing : Type :=
  | none
  | power1_out
  | power1_inOut
  | power2_in
  | power2_out
  | power2_inOut
  | back_out (overshoot : Q).

Definition cube (u : Q) : Q := u * u * u.

(** The eases of GSAP ([power1] is quadratic, [power2] cubic). *)
Definition ease (e : easing) (p : Q) : Q :=
  match e with
  | none => p
  | power1_out => 1 - (1 - p) * (1 - p)
  | power1_inOut =>
      if Qltb p 0.5 then (p * 2) * (p * 2) / 2
      else 1 - ((1 - p) * 2) * ((1 - p) * 2) / 2
  | power2_in => cube p
  | power2_out => 1 - cube (1 - p)
  | power2_inOut =>
      if Qltb p 0.5 then cube (p * 2) / 2
      else 1 - cube ((1 - p) * 2) / 2
  | back_out o =>
      if Qeq_bool p 0 then 0
      else (p - 1) * (p - 1) * ((o + 1) * (p - 1) + o) + 1
  end.

(** What a tween can animate: a vector of an object, the object
    [camState], the position of the camera, or the empty object [{}] of
    the tweens that only carry callbacks. *)
Inductive target : Type :=
  | Position (n : name)
  | Scale (n : name)
  | Rotation (n : name)
  | CamState
  | CameraPosition
  | Empty.

Definition read (g : target) (s : scene) : vec3 :=
  match g with
  | Position n => position (get n s)
  | Scale n => scale (get n s)
  | Rotation n => rotation (get n s)
  | CamState => camState s
  | CameraPosition => camera s
  | Empty => V3 0 0 0
  end.

Definition write (g : target) (v : vec3) (s : scene) : scene :=
  match g with
  | Position n => position_set n (x v) (y v) (z v) s
  | Scale n => scale_set n (x v) (y v) (z v) s
  | Rotation n => rotation_set n (x v) (y v) (z v) s
  | CamState => set_camState v s
  | CameraPosition => set_camera v s
  | Empty => s
  end.

(** One [tl.to(target, vars, position)]: the destination of the
    properties [x], [y], [z] that [vars] lists, [duration], [ease], the
    callbacks, and the position parameter. *)
Record tween : Type := Tween {
  tw_target : target;
  to_x : option Q;
  to_y : option Q;
  to_z : option Q;
  duration : Q;
  tw_ease : easing;
  onStart : option (scene -> scene);
  onUpdate : option (scene -> scene);
  onComplete : option (scene -> scene);
  start : Q
}.

(** [fullGroup.rotation.y = 0], the [onComplete] of the hero spin. *)
Definition face_front (s : scene) : scene :=
  let r := rotation (fullGroup s) in
  rotation_set n_fullGroup (x r) 0 (z r) s.

(** The [onStart] of PHASE 6. *)
Definition hold_heart (s : scene) : scene :=
  setOpacity n_heartGroup 1 (scale_set n_heartGroup 1 1 1 s).

(** The timeline [tl], in the order of the [tl.to] calls.  [s] is the
    scene when the script builds the timeline: three destinations are
    computed from the rotation the object has at that time.  (The source
    writes some numbers with a decimal zero, 1.0, 4.0, 0.0, 5.0: they are
    the numbers 1, 4, 0, 5.) *)
Definition tl (s : scene) : list tween :=
  [ (* PHASE 1: big heart reveal *)
    Tween (Scale n_heartGroup) (Some 1) (Some 1) (Some 1) 0.6 (back_out 1.6)
          None None None 0;
    Tween Empty None None None 0.6 power2_out
          None (Some (setOpacity n_heartGroup 1)) None 0;
    Tween CamState (Some 0) (Some 0.25) (Some 3.6) 0.6 power2_out
          None None None 0;
    (* PHASE 2: text appears *)
    Tween (Scale n_textGroup) (Some 1) (Some 1) (Some 1) 0.5 (back_out 1.4)
          None None None 0.6;
    Tween Empty None None None 0.5 power2_out
          (Some (setOpacity n_textGroup 1)) None None 0.6;
    Tween CamState (Some (-0.2)) (Some 0.25) (Some 3.55) 0.5 power1_out
          None None None 0.6;
    (* PHASE 3: small heart flies in *)
    Tween (Position n_smallHeartPlane) (Some 0) (Some 0) (Some 0.02) 0.7
          power2_out None None None 1.1;
    Tween (Scale n_addonGroup) (Some 1) (Some 1) (Some 1) 0.7 (back_out 1.4)
          None None None 1.1;
    Tween Empty None None None 0.7 power2_out
          (Some (setOpacity n_smallHeartPlane 1)) None None 1.1;
    Tween CamState (Some 0) (Some 0.4) (Some 3.4) 0.7 power2_out
          None None None 1.1;
    Tween (Rotation n_smallHeartPlane) None None
          (Some (z (rotation (smallHeartPlane s)) + Math_PI * 2 * 4))
          3 none None None None 1.1;
    (* PHASE 3.5: glow fade-in *)
    Tween (Scale n_glowGroup) (Some 1) (Some 1) (Some 1) 0.4 power2_out
          None None None 1.8;
    Tween Empty None None None 0.4 power2_out
          (Some (setOpacity n_glowGroup 0.6)) None None 1.8;
    (* PHASE 4: hero spin *)
    Tween (Rotation n_fullGroup) None
          (Some (y (rotation (fullGroup s)) + Math_PI * 2)) None
          2.5 power2_inOut None None (Some face_front) 1.8;
    Tween (Scale n_fullGroup) (Some 1.15) (Some 1.15) (Some 1.15) 1
          power2_out None None None 1.8;
    Tween (Scale n_fullGroup) (Some 1) (Some 1) (Some 1) 1.5
          power2_inOut None None None 2.8;
    Tween CamState None (Some 0.5) (Some 3.8) 2.5 power1_inOut
          None None None 1.8;
    (* PHASE 5: break apart / eject *)
    Tween (Position n_addonGroup) (Some 1.5) (Some 1.5) (Some 0.5) 0.6
          power2_in None None None 5;
    Tween (Scale n_addonGroup) (Some 0.4) (Some 0.4) (Some 0.4) 0.6
          power2_in None None None 5;
    Tween (Rotation n_addonGroup) None
          (Some (y (rotation (addonGroup s)) + Math_PI))
          (Some (z (rotation (addonGroup s)) + Math_PI / 4))
          0.6 power2_in None None None 5;
    Tween Empty None None None 0.6 power2_out
          None (Some (setOpacity n_addonGroup 0)) None 5;
    Tween (Scale n_glowGroup) (Some 1.2) (Some 1.2) (Some 1.2) 0.6
          power2_in None None None 5;
    Tween Empty None None None 0.6 power2_out
          (Some (setOpacity n_glowGroup 0)) None None 5;
    Tween CamState (Some 0.2) (Some 0.45) (Some 4) 0.6 power2_inOut
          None None None 5;
    (* PHASE 6: hold on just the big heart *)
    Tween CamState (Some 0) (Some 0.3) (Some 4) 1 power2_out
          None None None 5.6;
    Tween Empty None None None 1 power2_out
          (Some hold_heart) None None 5.6;
    (* PHASE 7: reset *)
    Tween Empty None None None 0.2 power2_out
          (Some reset) None None 6.6 ].

(** Where the playhead is with respect to a tween. *)
Inductive place : Type :=
  | Ahead     (* the tween has not been reached *)
  | Inside
  | Past.     (* the playhead is at or after the end of the tween *)

Definition place_of (t : Q) (tw : tween) : place :=
  if Qltb t (start tw) then Ahead
  else if Qle_bool (start tw + duration tw) t then Past
  else Inside.

(** The progress of a tween that the playhead is inside. *)
Definition progress (t : Q) (tw : tween) : Q :=
  (t - start tw) / duration tw.

(** What the player keeps for a tween: the values recorded when it was
    first rendered, and how far it got in the current iteration. *)
Inductive stage_of_tween : Type :=
  | Waiting
  | Running
  | Finished.

Record tstate : Type := TState {
  from : option vec3;
  reached : stage_of_tween
}.

Record player : Type := Player {
  stage : scene;
  states : list tstate
}.

Definition call (f : option (scene -> scene)) (s : scene) : scene :=
  match f with
  | Some g => g s
  | None => s
  end.

Definition interp (a b r : Q) : Q := a + (b - a) * r.

(** The value a tween gives a property: untouched when [vars] does not
    list it; otherwise the recorded value when the tween is put back at
    its start, the destination once it has ended, and in between the
    point the eased progress [r] gives. *)
Definition tween_value (dest : option Q) (pl : place) (a cur r : Q) : Q :=
  match dest with
  | None => cur
  | Some b =>
      match pl with
      | Ahead => a
      | Inside => interp a b r
      | Past => b
      end
  end.

Definition tween_write (tw : tween) (pl : place) (fr : vec3) (r : Q)
    (s : scene) : scene :=
  let cur := read (tw_target tw) s in
  write (tw_target tw)
        (V3 (tween_value (to_x tw) pl (x fr) (x cur) r)
            (tween_value (to_y tw) pl (y fr) (y cur) r)
            (tween_value (to_z tw) pl (z fr) (z cur) r)) s.

(** Rendering one tween, given where the playhead is and the progress. *)
Definition render_at (pl : place) (p : Q) (tw : tween) (ts : tstate)
    (s : scene) : tstate * scene :=
  match pl, reached ts with
  | Ahead, _ => (ts, s)
  | _, Finished => (ts, s)
  | _, _ =>
      let fr := match from ts with
                | Some v => v
                | None => read (tw_target tw) s
                end in
      let s := match reached ts with
               | Waiting => call (onStart tw) s
               | _ => s
               end in
      let s := tween_write tw pl fr (ease (tw_ease tw) p) s in
      let s := call (onUpdate tw) s in
      match pl with
      | Past => (TState (Some fr) Finished, call (onComplete tw) s)
      | _ => (TState (Some fr) Running, s)
      end
  end.

Definition render_tween (t : Q) (tw : tween) (ts : tstate) (s : scene)
    : tstate * scene :=
  render_at (place_of t tw) (progress t tw) tw ts s.

(** One rendering of the timeline with the playhead at [t]: the tweens
    are rendered in the order they were added. *)
Fixpoint render_all (t : Q) (tws : list tween) (tss : list tstate)
    (s : scene) : list tstate * scene :=
  match tws, tss with
  | tw :: tws', ts :: tss' =>
      let '(ts1, s1) := render_tween t tw ts s in
      let '(tss1, s2) := render_all t tws' tss' s1 in
      (ts1 :: tss1, s2)
  | _, _ => (tss, s)
  end.

(** The end of an iteration, with events suppressed: the tweens are put
    back at their recorded values, from the last to the first. *)
Definition rewind_tween (tw : tween) (ts : tstate) (s : scene) : scene :=
  match from ts with
  | Some fr => tween_write tw Ahead fr 0 s
  | None => s
  end.

Fixpoint rewind_all (tws : list tween) (tss : list tstate) (s : scene)
    : scene :=
  match tws, tss with
  | tw :: tws', ts :: tss' => rewind_tween tw ts (rewind_all tws' tss' s)
  | _, _ => s
  end.

Section Playback.

(** The tweens of the timeline being played. *)
Variable tws : list tween.

Definition frame (t : Q) (pl : player) : player :=
  let '(tss, s) := render_all t tws (states pl) (stage pl) in
  Player s tss.

(** The length of the timeline: the latest end of a tween. *)
Definition totalDuration : Q :=
  fold_left (fun m tw =>
               if Qltb m (start tw + duration tw)
               then start tw + duration tw else m) tws 0.

Definition rewind (pl : player) : player :=
  Player (rewind_all tws (states pl) (stage pl))
         (map (fun ts => TState (from ts) Waiting) (states pl)).

(** What the ticker of GSAP does to the timeline: render it at a
    playhead time of the current iteration, or, when the playhead has
    passed the end, render the end of the iteration and start over. *)
Inductive tick : Type :=
  | Frame (t : Q)
  | Repeat.

Definition step (pl : player) (k : tick) : player :=
  match k with
  | Frame t => frame t pl
  | Repeat => rewind (frame totalDuration pl)
  end.

Definition play (ks : list tick) (pl : player) : player :=
  fold_left step ks pl.

(** What happens on the page once it has loaded: GSAP ticks the
    timeline, and the render loop runs [animate]. *)
Inductive event : Type :=
  | Gsap (k : tick)
  | Animate.

Definition handle (pl : player) (e : event) : player :=
  match e with
  | Gsap k => step pl k
  | Animate => Player (animate (stage pl)) (states pl)
  end.

Definition run (es : list event) (pl : player) : player :=
  fold_left handle es pl.

(** The playhead only moves forward within an iteration: [forward prev ks]
    holds when the frames of [ks] come in nondecreasing time, starting
    from [prev], each [Repeat] starting again from before time 0. *)
Fixpoint forward (prev : option Q) (ks : list tick) : bool :=
  match ks with
  | [] => true
  | Frame t :: ks' =>
      match prev with
      | Some t0 => Qle_bool t0 t
      | None => true
      end && forward (Some t) ks'
  | Repeat :: ks' => forward None ks'
  end.

End Playback.

(** The timeline of the page and the player when the page has loaded. *)
Definition timeline : list tween := tl initial.

Definition loaded : player :=
  Player initial (map (fun _ => TState None Waiting) timeline).

(** The player at the start of the second iteration. *)
Definition repeated : player :=
  step timeline loaded Repeat.

(** The hero spin, the 14th tween of the timeline. *)
Definition hero_spin : tween :=
  Tween (Rotation n_fullGroup) None
        (Some (y (rotation (fullGroup initial)) + Math_PI * 2)) None
        2.5 power2_inOut None None (Some face_front) 1.8.

(** A function, a callback, a tween that leaves [camera.position] alone. *)
Definition keeps_camera (f : scene -> scene) : Prop :=
  forall s : scene, camera (f s) = camera s.

Definition callback_keeps_camera (f : option (scene -> scene)) : Prop :=
  match f with
  | Some g => keeps_camera g
  | None => True
  end.

Definition spares_camera (tw : tween) : Prop :=
  tw_target tw <> CameraPosition /\
  callback_keeps_camera (onStart tw) /\
  callback_keeps_camera (onUpdate tw) /\
  callback_keeps_camera (onComplete tw).

(** The players an iteration starts from. *)
Definition fresh (pl : player) : Prop := pl = loaded \/ pl = repeated.

(** [reached_by prev pl]: [pl] is the player at the start of an iteration
    ([prev] is [None]), or after a frame at time [t] rendered directly from
    the start of an iteration ([prev] is [Some t]). *)
Inductive reached_by : option Q -> player -> Prop :=
  | reached_start (pl : player) : fresh pl -> reached_by None pl
  | reached_frame (pl : player) (t : Q) :
      fresh pl -> reached_by (Some t) (frame timeline t pl).

(** *** The timeline by regions

    The starts and ends of the tweens cut the time line into 13 regions;
    inside a region the playhead is at the same place with respect to
    every tween.  [render_with] renders the tweens with the places given,
    and the progress of a tween given as a function of its start and
    duration. *)
Fixpoint render_with (pls : list place) (pf : Q -> Q -> Q)
    (tws : list tween) (tss : list tstate) (s : scene)
    : list tstate * scene :=
  match pls, tws, tss with
  | pl :: pls', tw :: tws', ts :: tss' =>
      let '(ts1, s1) := render_at pl (pf (start tw) (duration tw)) tw ts s in
      let '(tss1, s2) := render_with pls' pf tws' tss' s1 in
      (ts1 :: tss1, s2)
  | _, _, _ => (tss, s)
  end.

Definition frame_with (pls : list place) (pf : Q -> Q -> Q) (pl : player)
    : player :=
  let '(tss, s) := render_with pls pf timeline (states pl) (stage pl) in
  Player s tss.

Definition cuts : list Q :=
  [0; 0.6; 1.1; 1.8; 2.2; 2.8; 4.1; 4.3; 5; 5.6; 6.6; 6.8].

(** The region of a time: the number of cuts at or before it. *)
Definition region (t : Q) : nat :=
  length (List.filter (fun c => Qle_bool c t) cuts).

(** A time in each region. *)
Definition samples : list Q :=
  [-1; 0.3; 0.85; 1.45; 2; 2.5; 3.5; 4.2; 4.65; 5.3; 6.1; 6.7; 6.8].

Definition places_in (i : nat) : list place :=
  map (place_of (nth i samples 0)) timeline.

(** *** The billboards ([makeBillboard]) *)

(** What [makeBillboard] keeps on a texture: the flag [onceReady] it adds,
    and the size of the image, 0 while it is not known. *)
Record texture : Type := Texture {
  onceReady : bool;
  image_width : Q;
  image_height : Q
}.

(** [a || b] when [a] is a number: [b] when [a] is 0. *)
Definition or_else (a b : Q) : Q := if Qeq_bool a 0 then b else a.

(** The [onUpdate] that [makeBillboard] gives the texture of the mesh
    [n], made with [baseWidth]. *)
Definition tex_onUpdate (baseWidth : Q) (n : name) (tex : texture)
    (s : scene) : texture * scene :=
  if onceReady tex then (tex, s)
  else
    let w := or_else (image_width tex) 800 in
    let h := or_else (image_height tex) 800 in
    let aspect := h / w in
    (Texture true (image_width tex) (image_height tex),
     scale_set n baseWidth (baseWidth * aspect) 1 s).

(** *** What the timeline keeps *)

Definition name_eqb (a b : name) : bool :=
  match a, b with
  | n_fullGroup, n_fullGroup | n_heartGroup, n_heartGroup
  | n_textGroup, n_textGroup | n_addonGroup, n_addonGroup
  | n_glowGroup, n_glowGroup | n_bigHeartPlane, n_bigHeartPlane
  | n_textPlane, n_textPlane | n_smallHeartPlane, n_smallHeartPlane
  | n_glowPlane, n_glowPlane => true
  | _, _ => false
  end.

(** [under n m]: [setOpacity] called on [n] visits [m]. *)
Definition under (n m : name) : bool := existsb (name_eqb m) (traverse 3 n).

(** A function, a callback, a tween that keeps a property of the scene. *)
Definition preserves (P : scene -> Prop) (f : scene -> scene) : Prop :=
  forall s : scene, P s -> P (f s).

Definition callback_preserves (P : scene -> Prop)
    (f : option (scene -> scene)) : Prop :=
  match f with
  | Some g => preserves P g
  | None => True
  end.

Definition tween_preserves (P : scene -> Prop) (tw : tween) : Prop :=
  (forall (pl : place) (fr : vec3) (r : Q),
     preserves P (tween_write tw pl fr r)) /\
  callback_preserves P (onStart tw) /\
  callback_preserves P (onUpdate tw) /\
  callback_preserves P (onComplete tw).

(** The vectors that no phase writes: the position, scale and rotation of
    the three full billboards, the scale of the small heart, the position
    and rotation of heartGroup, the position of textGroup and of
    fullGroup, the rotation of glowGroup. *)
Definition fixed (s : scene) : list vec3 :=
  [position (bigHeartPlane s); scale (bigHeartPlane s);
   rotation (bigHeartPlane s);
   position (textPlane s); scale (textPlane s); rotation (textPlane s);
   position (glowPlane s); scale (glowPlane s); rotation (glowPlane s);
   scale (smallHeartPlane s);
   position (heartGroup s); rotation (heartGroup s);
   position (textGroup s); position (fullGroup s);
   rotation (glowGroup s)].

(** The opacities the script gives: 0, 0.6 or 1, for a mesh; none for a
    group. *)
Definition stepped (s : scene) : Prop :=
  Forall (fun n =>
            if is_mesh n
            then opacity (get n s) = Some 0 \/
                 opacity (get n s) = Some 0.6 \/
                 opacity (get n s) = Some 1
            else opacity (get n s) = None) all_names.

(** *** The playhead moved back

    What GSAP does when the timeline is given a time before the one it is
    at (a seek back): it renders the tweens from the last to the first.  A
    tween that has not started, or that has ended and ends at or before
    the new time, is left alone.  A tween that has started is rendered at
    the new time: inside it, at the eased progress; before its start, put
    back at its recorded values, to start again when the playhead comes
    back to it.  [onUpdate] is called each time a tween is rendered, no
    [onStart] is called, and what a callback wrote is not undone: GSAP
    only knows the properties it tweens.  (A running tween that ends at
    or before the new time does not occur when the playhead goes back; it
    is rendered as a tick renders it.) *)
Definition render_back_at (pl : place) (p : Q) (tw : tween) (ts : tstate)
    (s : scene) : tstate * scene :=
  match reached ts, pl, from ts with
  | Waiting, _, _ => (ts, s)
  | Finished, Past, _ => (ts, s)
  | _, Ahead, Some fr =>
      (TState (Some fr) Waiting,
       call (onUpdate tw) (tween_write tw Ahead fr 0 s))
  | _, Inside, Some fr =>
      (TState (Some fr) Running,
       call (onUpdate tw) (tween_write tw Inside fr (ease (tw_ease tw) p) s))
  | _, _, _ => render_at pl p tw ts s
  end.

Fixpoint render_back_all (t : Q) (tws : list tween) (tss : list tstate)
    (s : scene) : list tstate * scene :=
  match tws, tss with
  | tw :: tws', ts :: tss' =>
      let '(tss1, s1) := render_back_all t tws' tss' s in
      let '(ts1, s2) :=
        render_back_at (place_of t tw) (progress t tw) tw ts s1 in
      (ts1 :: tss1, s2)
  | _, _ => (tss, s)
  end.

Definition seek_back (tws : list tween) (t : Q) (pl : player) : player :=
  let '(tss, s) := render_back_all t tws (states pl) (stage pl) in
  Player s tss.

(** *** The page: the timeline, the render loop and the textures

    GSAP ticks the timeline, the render loop runs [animate], and three.js
    calls the [onUpdate] of a texture when it uploads it, once the image
    has come; this can happen between any two ticks. *)
Inductive billboard : Type :=
  | b_bigHeart
  | b_text
  | b_smallHeart
  | b_glow.

Definition mesh_of (b : billboard) : name :=
  match b with
  | b_bigHeart => n_bigHeartPlane
  | b_text => n_textPlane
  | b_smallHeart => n_smallHeartPlane
  | b_glow => n_glowPlane
  end.

(** The [baseWidth] that [makeBillboard] is called with. *)
Definition baseWidth (b : billboard) : Q :=
  match b with
  | b_glow => 2.5
  | _ => 2
  end.

Definition billboard_eqb (a b : billboard) : bool :=
  match a, b with
  | b_bigHeart, b_bigHeart | b_text, b_text
  | b_smallHeart, b_smallHeart | b_glow, b_glow => true
  | _, _ => false
  end.

Record page : Type := Page {
  player_of : player;
  textures : billboard -> texture
}.

Definition set_texture (b : billboard) (tex : texture)
    (texs : billboard -> texture) : billboard -> texture :=
  fun b' => if billboard_eqb b b' then tex else texs b'.

Inductive happening : Type :=
  | Ticked (k : tick)
  | Rendered
  | Uploaded (b : billboard).

Definition happen (p : page) (h : happening) : page :=
  match h with
  | Ticked k => Page (step timeline (player_of p) k) (textures p)
  | Rendered =>
      Page (Player (animate (stage (player_of p))) (states (player_of p)))
           (textures p)
  | Uploaded b =>
      let '(tex, s) := tex_onUpdate (baseWidth b) (mesh_of b) (textures p b)
                                    (stage (player_of p)) in
      Page (Player s (states (player_of p))) (set_texture b tex (textures p))
  end.

Definition browse (hs : list happening) (p : page) : page :=
  fold_left happen hs p.

(** The page when the script has run: no image has come yet; [img] gives
    the width and height that each image will have. *)
Definition opened (img : billboard -> Q * Q) : page :=
  Page loaded (fun b => Texture false (fst (img b)) (snd (img b))).

(** The ticks of a history, and whether the texture of a billboard has
    been uploaded in it. *)
Definition ticks (hs : list happening) : list tick :=
  flat_map (fun h => match h with
                     | Ticked k => [k]
                     | Rendered | Uploaded _ => []
                     end) hs.

Definition uploaded (b : billboard) (hs : list happening) : bool :=
  existsb (fun h => match h with
                    | Uploaded b' => billboard_eqb b' b
                    | Ticked _ | Rendered => false
                    end) hs.

(** The scale that the upload of its texture gives a billboard. *)
Definition lock_scale (img : billboard -> Q * Q) (ready : billboard -> bool)
    (s : scene) (b : billboard) : scene :=
  if ready b
  then scale_set (mesh_of b) (baseWidth b)
         (baseWidth b *
          (or_else (snd (img b)) 800 / or_else (fst (img b)) 800)) 1 s
  else s.

Definition locked (img : billboard -> Q * Q) (ready : billboard -> bool)
    (s : scene) : scene :=
  fold_left (lock_scale img ready) [b_bigHeart; b_text; b_smallHeart; b_glow] s.

(** The transform and the opacity of every object, and camState. *)
Definition pose (s : scene) : list object3d * vec3 :=
  (map (fun n => get n s) all_names, camState s).

(** [u] stands aside of the timeline: it writes nothing that the
    statements of the phases read or write, so that each of them does the
    same before and after [u]. *)
Definition aside (u : scene -> scene) : Prop :=
  (forall n x0 y0 z0 s,
     position_set n x0 y0 z0 (u s) = u (position_set n x0 y0 z0 s)) /\
  (forall n x0 y0 z0 s,
     rotation_set n x0 y0 z0 (u s) = u (rotation_set n x0 y0 z0 s)) /\
  (forall n x0 y0 z0 s,
     is_mesh n = false ->
     scale_set n x0 y0 z0 (u s) = u (scale_set n x0 y0 z0 s)) /\
  (forall v s, set_camState v (u s) = u (set_camState v s)) /\
  (forall v n s,
     set_material_opacity v (u s) n = u (set_material_opacity v s n)) /\
  (forall s, camState (u s) = camState s) /\
  (forall n s,
     position (get n (u s)) = position (get n s) /\
     rotation (get n (u s)) = rotation (get n s) /\
     opacity (get n (u s)) = opacity (get n s) /\
     (is_mesh n = false -> scale (get n (u s)) = scale (get n s))).

(** A function, a callback, a tween that does the same before and after
    [u]. *)
Definition commutes (u f : scene -> scene) : Prop :=
  forall s : scene, f (u s) = u (f s).

Definition callback_commutes (u : scene -> scene)
    (f : option (scene -> scene)) : Prop :=
  match f with
  | Some g => commutes u g
  | None => True
  end.

Definition tween_commutes (u : scene -> scene) (tw : tween) : Prop :=
  (forall s : scene, read (tw_target tw) (u s) = read (tw_target tw) s) /\
  (forall v : vec3, commutes u (write (tw_target tw) v)) /\
  callback_commutes u (onStart tw) /\
  callback_commutes u (onUpdate tw) /\
  callback_commutes u (onComplete tw).

(** An object with the opacity of its material set, if it has one. *)
Definition with_opacity (v : Q) (o : object3d) : object3d :=
  match opacity o with
  | Some _ => Object3D (position o) (scale o) (rotation o) (Some v)
  | None => o
  end.

End Timeline.

(** * Properties *)

Lemma Qltb_true (a b : Q) : Qltb a b = true <-> a < b.
Proof.
  unfold Qltb. rewrite negb_true_iff, <- not_true_iff_false, Qle_bool_iff.
  split; [apply Qnot_le_lt | apply Qlt_not_le].
Qed.

Lemma Qltb_false (a b : Q) : Qltb a b = false <-> b <= a.
Proof.
  unfold Qltb. rewrite negb_false_iff, Qle_bool_iff. reflexivity.
Qed.

Lemma Qltb_cases (a b : Q) :
  (a < b /\ Qltb a b = true) \/ (b <= a /\ Qltb a b = false).
Proof.
  destruct (Qlt_le_dec a b) as [H | H].
  - left. split; [exact H | apply Qltb_true, H].
  - right. split; [exact H | apply Qltb_false, H].
Qed.

Lemma Qle_bool_cases (a b : Q) :
  (a <= b /\ Qle_bool a b = true) \/ (b < a /\ Qle_bool a b = false).
Proof.
  destruct (Qlt_le_dec b a) as [H | H].
  - right. split; [exact H |].
    apply not_true_iff_false. rewrite Qle_bool_iff. apply Qlt_not_le, H.
  - left. split; [exact H | apply Qle_bool_iff, H].
Qed.

Lemma half (a : Q) : a / 2 == a * 0.5.
Proof. field. Qed.

(** ** The particle field *)

Module SnowProps.

Import Snow.

Section Facts.

Variable random : nat -> Q.

Lemma createFlake_false (wd ht : Q) (n : nat) :
  createFlake random wd ht false n =
  (mkFlake (random n * wd)
           (random (1 + n)%nat * ht)
           (0.6 + random (2 + n)%nat * 1.8)
           (0.5 + random (3 + n)%nat * 1.5 + 0)
           ((random (4 + n)%nat - 0.5) * 0.4)
           (0.4 + random (5 + n)%nat * 0.6),
   (6 + n)%nat).
Proof. reflexivity. Qed.

Lemma createFlake_true (wd ht : Q) (n : nat) :
  createFlake random wd ht true n =
  (mkFlake (random n * wd)
           (ht * 0.4)
           (1 + random (1 + n)%nat * 2)
           (0.5 + random (2 + n)%nat * 1.5 + 1.2)
           ((random (3 + n)%nat - 0.5) * 0.4)
           (0.4 + random (4 + n)%nat * 0.6),
   (5 + n)%nat).
Proof. reflexivity. Qed.

Lemma burst_one_eq (w : world) :
  burst_one random w =
  mkWorld (width w) (height w)
    (flakes w ++
     [mkFlake
        (width w / 2 + (random (5 + calls w)%nat - 0.5) * (width w * 0.15))
        (height w / 2 + (random (6 + calls w)%nat - 0.5) * (height w * 0.15))
        (1 + random (9 + calls w)%nat * 2)
        (1 + random (8 + calls w)%nat * 3)
        ((random (7 + calls w)%nat - 0.5) * 3)
        (0.4 + random (4 + calls w)%nat * 0.6)])
    (canvas w) (10 + calls w)%nat.
Proof. reflexivity. Qed.

Lemma insert_middle {A : Type} (pre : list A) (a b : A) (rest : list A) :
  <[length pre := a]> (pre ++ b :: rest) = pre ++ a :: rest.
Proof.
  rewrite <- (Nat.add_0_r (length pre)). rewrite insert_app_r. reflexivity.
Qed.

(** What one pass of the loop body leaves in the slot of [f], when the
    counter of [Math.random()] is [n] on entry. *)
Lemma drawSnow_body_middle (wd ht : Q) (pre rest : list flake) (f : flake)
    (cs : list circle) (n : nat) :
  drawSnow_body random (length pre) f (mkWorld wd ht (pre ++ f :: rest) cs n) =
  if Qltb ht (y f + speedY f) then
    mkWorld wd ht
      (pre ++ set_y (fst (createFlake random wd ht false n)) (-5) :: rest)
      (cs ++ [arc (wrap wd (move f))]) (6 + n)
  else
    mkWorld wd ht (pre ++ wrap wd (move f) :: rest)
      (cs ++ [arc (wrap wd (move f))]) n.
Proof.
  unfold drawSnow_body. cbn [set_flakes flakes width height canvas calls].
  rewrite insert_middle.
  change (y (move f)) with (y f + speedY f).
  destruct (Qltb ht (y f + speedY f)).
  - unfold recycled. cbn [width height calls flakes].
    rewrite createFlake_false.
    cbn [set_calls set_flakes set_canvas flakes width height canvas calls fst].
    rewrite insert_middle. reflexivity.
  - cbn [set_calls set_flakes set_canvas flakes width height canvas calls].
    rewrite insert_middle. reflexivity.
Qed.

Lemma slot_after_mono (wd ht : Q) (n0 n1 : nat) (f g : flake) :
  (n0 <= n1)%nat ->
  slot_after random wd ht n1 f g -> slot_after random wd ht n0 f g.
Proof.
  intros Hn [H | (H & n & Hle & Hg)]; [left; exact H | right].
  split; [exact H |]. exists n. split; [lia | exact Hg].
Qed.

Lemma drawSnow_loop_spec (wd ht : Q) (rest : list flake) :
  forall (pre : list flake) (cs : list circle) (n fuel : nat),
    (length rest <= fuel)%nat ->
    exists (rest' : list flake) (cs' : list circle) (n' : nat),
      drawSnow_loop random fuel (length pre)
        (mkWorld wd ht (pre ++ rest) cs n) =
      mkWorld wd ht (pre ++ rest') (cs ++ cs') n' /\
      Forall2 (slot_after random wd ht n) rest rest' /\
      Forall2 (fun f c => c = arc (wrap wd (move f))) rest cs'.
Proof.
  induction rest as [| f rest IH]; intros pre cs n fuel Hfuel.
  - exists [], [], n. rewrite !app_nil_r. split; [| split; constructor].
    destruct fuel as [| fuel]; [reflexivity |].
    cbn [drawSnow_loop flakes].
    rewrite lookup_ge_None_2 by lia. reflexivity.
  - destruct fuel as [| fuel]; [cbn in Hfuel; lia |].
    cbn [drawSnow_loop flakes].
    rewrite list_lookup_middle by reflexivity.
    rewrite drawSnow_body_middle.
    destruct (Qltb_cases ht (y f + speedY f)) as [[Hlt ->] | [Hle ->]].
    + set (g := set_y (fst (createFlake random wd ht false n)) (-5)).
      destruct (IH (pre ++ [g]) (cs ++ [arc (wrap wd (move f))])
                   (6 + n)%nat fuel) as (rest' & cs' & n' & Heq & HR & HD).
      { cbn in Hfuel. lia. }
      rewrite length_app, Nat.add_1_r, <- !app_assoc in Heq. cbn [app] in Heq.
      exists (g :: rest'), (arc (wrap wd (move f)) :: cs'), n'.
      split; [exact Heq |]. split.
      * constructor.
        -- right. split; [exact Hlt |]. exists n. split; [lia | reflexivity].
        -- eapply Forall2_impl; [exact HR |].
           intros a b. apply slot_after_mono. lia.
      * constructor; [reflexivity | exact HD].
    + destruct (IH (pre ++ [wrap wd (move f)])
                   (cs ++ [arc (wrap wd (move f))]) n fuel)
        as (rest' & cs' & n' & Heq & HR & HD).
      { cbn in Hfuel. lia. }
      rewrite length_app, Nat.add_1_r, <- !app_assoc in Heq. cbn [app] in Heq.
      exists (wrap wd (move f) :: rest'), (arc (wrap wd (move f)) :: cs'), n'.
      split; [exact Heq |]. split.
      * constructor; [| exact HR]. left. split; [exact Hle | reflexivity].
      * constructor; [reflexivity | exact HD].
Qed.

(** One call of [drawSnow]: the loop ends by its own test, and every slot
    of the array and every circle drawn is as the body leaves it. *)
Lemma drawSnow_spec (w : world) :
  exists (fs : list flake) (cs : list circle) (n : nat),
    drawSnow random w = mkWorld (width w) (height w) fs cs n /\
    Forall2 (slot_after random (width w) (height w) (calls w)) (flakes w) fs /\
    Forall2 (fun f c => c = arc (wrap (width w) (move f))) (flakes w) cs.
Proof.
  destruct w as [wd ht fs cs n]. unfold drawSnow.
  cbn [flakes set_canvas width height calls canvas].
  destruct (drawSnow_loop_spec wd ht fs [] [] n (length fs))
    as (fs' & cs' & n' & Heq & HR & HD); [lia |].
  exists fs', cs', n'. split; [exact Heq | split; assumption].
Qed.

Lemma wrap_fields (wd : Q) (f : flake) :
  y (wrap wd f) = y f /\ radius (wrap wd f) = radius f /\
  speedY (wrap wd f) = speedY f /\ speedX (wrap wd f) = speedX f /\
  alpha (wrap wd f) = alpha f.
Proof.
  unfold wrap.
  destruct (Qltb (wd + 5) (x f)); cbn [x set_x];
    match goal with |- context [Qltb ?a ?b] => destruct (Qltb a b) end;
    cbn; repeat split.
Qed.

Lemma wrap_x (wd : Q) (f : flake) :
  (wd + 5 < x f -> x (wrap wd f) = -5) /\
  (x f <= wd + 5 -> x f < -5 -> x (wrap wd f) = wd + 5) /\
  (x f <= wd + 5 -> -5 <= x f -> x (wrap wd f) = x f).
Proof.
  unfold wrap.
  destruct (Qltb_cases (wd + 5) (x f)) as [[H1 ->] | [H1 ->]]; cbn [x set_x].
  - replace (Qltb (-5) (-5)) with false by reflexivity.
    repeat split; intros; try reflexivity; lra.
  - destruct (Qltb_cases (x f) (-5)) as [[H2 ->] | [H2 ->]]; cbn [x set_x];
      repeat split; intros; try reflexivity; lra.
Qed.

Lemma lookup_Forall2_l {A B : Type} (R : A -> B -> Prop) (l : list A)
    (k : list B) (i : nat) (a : A) :
  Forall2 R l k -> l !! i = Some a -> exists b : B, k !! i = Some b /\ R a b.
Proof. intros H Hi. exact (Forall2_lookup_l R l k i a H Hi). Qed.

Lemma leaving_cons (ht : Q) (f : flake) (l : list flake) :
  leaving ht (f :: l) = ((if leaves ht f then 1 else 0) + leaving ht l)%nat.
Proof. unfold leaving. cbn [List.filter]. destruct (leaves ht f); reflexivity. Qed.

(** The pass of the loop, slot by slot and with the count of the calls of
    [Math.random()]: a flake that leaves by the bottom is replaced by the
    flake that [createFlake(false)] makes when the counter stands at the
    calls made before the pass plus six for each flake replaced before it
    in the pass. *)
Lemma drawSnow_loop_exact (wd ht : Q) (rest : list flake) :
  forall (pre : list flake) (cs : list circle) (n fuel : nat),
    (length rest <= fuel)%nat ->
    exists (rest' : list flake) (cs' : list circle),
      drawSnow_loop random fuel (length pre)
        (mkWorld wd ht (pre ++ rest) cs n) =
      mkWorld wd ht (pre ++ rest') (cs ++ cs')
              (n + 6 * leaving ht rest)%nat /\
      forall (j : nat) (f : flake),
        rest !! j = Some f ->
        rest' !! j =
        Some (if leaves ht f
              then set_y (fst (createFlake random wd ht false
                                 (n + 6 * leaving ht (take j rest))%nat))
                   (-5)
              else wrap wd (move f)).
Proof.
  induction rest as [| f rest IH]; intros pre cs n fuel Hfuel.
  - exists [], []. rewrite !app_nil_r. split.
    + replace (n + 6 * leaving ht [])%nat with n by (cbn; lia).
      destruct fuel as [| fuel]; [reflexivity |].
      cbn [drawSnow_loop flakes].
      rewrite lookup_ge_None_2 by lia. reflexivity.
    + intros j g Hj. discriminate Hj.
  - destruct fuel as [| fuel]; [cbn in Hfuel; lia |].
    cbn [drawSnow_loop flakes].
    rewrite list_lookup_middle by reflexivity.
    rewrite drawSnow_body_middle. rewrite leaving_cons.
    change (Qltb ht (y f + speedY f)) with (leaves ht f).
    destruct (leaves ht f) eqn:E.
    + set (g := set_y (fst (createFlake random wd ht false n)) (-5)).
      destruct (IH (pre ++ [g]) (cs ++ [arc (wrap wd (move f))])
                   (6 + n)%nat fuel) as (rest' & cs' & Heq & Hslots).
      { cbn in Hfuel. lia. }
      rewrite length_app, Nat.add_1_r, <- !app_assoc in Heq. cbn [app] in Heq.
      exists (g :: rest'), (arc (wrap wd (move f)) :: cs').
      split.
      * rewrite Heq. f_equal. lia.
      * intros [| j] h Hj.
        -- injection Hj as <-. rewrite E. cbn [take lookup].
           replace (n + 6 * leaving ht [])%nat with n by (cbn; lia).
           reflexivity.
        -- cbn [take]. rewrite leaving_cons, E.
           replace (n + 6 * (1 + leaving ht (take j rest)))%nat
             with (6 + n + 6 * leaving ht (take j rest))%nat by lia.
           apply (Hslots j h Hj).
    + destruct (IH (pre ++ [wrap wd (move f)])
                   (cs ++ [arc (wrap wd (move f))]) n fuel)
        as (rest' & cs' & Heq & Hslots).
      { cbn in Hfuel. lia. }
      rewrite length_app, Nat.add_1_r, <- !app_assoc in Heq. cbn [app] in Heq.
      exists (wrap wd (move f) :: rest'), (arc (wrap wd (move f)) :: cs').
      split.
      * rewrite Heq. f_equal.
      * intros [| j] h Hj.
        -- injection Hj as <-. rewrite E. reflexivity.
        -- cbn [take]. rewrite leaving_cons, E. apply (Hslots j h Hj).
Qed.

Lemma drawSnow_exact (w : world) :
  calls (drawSnow random w)
    = (calls w + 6 * leaving (height w) (flakes w))%nat /\
  forall (i : nat) (f : flake),
    flakes w !! i = Some f ->
    flakes (drawSnow random w) !! i =
    Some (if leaves (height w) f
          then set_y (fst (createFlake random (width w) (height w) false
                             (calls w
                              + 6 * leaving (height w) (take i (flakes w)))%nat))
                     (-5)
          else wrap (width w) (move f)).
Proof.
  destruct w as [wd ht fs cs n]. unfold drawSnow, set_canvas.
  cbn [flakes width height calls canvas].
  destruct (drawSnow_loop_exact wd ht fs [] [] n (length fs))
    as (fs' & cs' & Heq & Hslots); [lia |].
  cbn [length app] in Heq. rewrite Heq. cbn [calls flakes].
  split; [reflexivity | exact Hslots].
Qed.

(** C8.  One call of [drawSnow] moves the flake of every slot once, by its
    own speed: the object that was in slot [i] is drawn at [y + speedY],
    and at [x + speedX] brought back to the opposite side when it has left
    by a side, with its radius and alpha.  When it is then below [height],
    the slot holds a new flake, made by [createFlake(false)] from six
    calls of [Math.random()] that nothing has used before (the counter
    stands at the calls made before the frame, plus six for each flake
    replaced earlier in the frame; the whole frame makes six calls for
    each flake it replaces): its [x], radius, speeds and alpha are the
    random values of an ambient flake, in the ranges of the initial fill,
    and it is put at [y = -5].  Otherwise the slot holds the same flake,
    moved, with its speeds, radius and alpha, and with [x] set to [-5]
    when it was beyond [width + 5], to [width + 5] when it was below [-5],
    and left as moved otherwise. *)
Theorem drawSnow_moves_recycles_wraps (w : world) (i : nat) (f : flake) :
  flakes w !! i = Some f ->
  calls (drawSnow random w)
    = (calls w + 6 * leaving (height w) (flakes w))%nat /\
  exists (g : flake) (c : circle),
    flakes (drawSnow random w) !! i = Some g /\
    canvas (drawSnow random w) !! i = Some c /\
    cy c = y f + speedY f /\ cr c = radius f /\ calpha c = alpha f /\
    (width w + 5 < x f + speedX f -> cx c = -5) /\
    (x f + speedX f <= width w + 5 -> x f + speedX f < -5 ->
     cx c = width w + 5) /\
    (x f + speedX f <= width w + 5 -> -5 <= x f + speedX f ->
     cx c = x f + speedX f) /\
    (height w < y f + speedY f ->
     let n := (calls w + 6 * leaving (height w) (take i (flakes w)))%nat in
     g = mkFlake (random n * width w)
                 (-5)
                 (0.6 + random (2 + n)%nat * 1.8)
                 (0.5 + random (3 + n)%nat * 1.5 + 0)
                 ((random (4 + n)%nat - 0.5) * 0.4)
                 (0.4 + random (5 + n)%nat * 0.6) /\
     (unit_range random -> 0 <= width w ->
      0 <= x g <= width w /\ 0.6 <= radius g < 2.4 /\
      0.5 <= speedY g < 2 /\ -0.2 <= speedX g < 0.2 /\
      0.4 <= alpha g < 1)) /\
    (y f + speedY f <= height w ->
     y g = y f + speedY f /\
     speedX g = speedX f /\ speedY g = speedY f /\
     radius g = radius f /\ alpha g = alpha f /\
     (width w + 5 < x f + speedX f -> x g = -5) /\
     (x f + speedX f <= width w + 5 -> x f + speedX f < -5 ->
      x g = width w + 5) /\
     (x f + speedX f <= width w + 5 -> -5 <= x f + speedX f ->
      x g = x f + speedX f)).
Proof.
  intros Hi.
  destruct (drawSnow_exact w) as [Hcalls Hslots].
  split; [exact Hcalls |].
  specialize (Hslots i f Hi).
  destruct (drawSnow_spec w) as (fs & cs & n & Heq & _ & HD).
  assert (Hc : canvas (drawSnow random w) !! i
               = Some (arc (wrap (width w) (move f)))).
  { rewrite Heq. cbn [canvas].
    destruct (lookup_Forall2_l _ _ _ _ _ HD Hi) as (c & Hc & ->). exact Hc. }
  eexists. exists (arc (wrap (width w) (move f))).
  split; [exact Hslots |]. split; [exact Hc |].
  destruct (wrap_fields (width w) (move f)) as (Wy & Wr & WsY & WsX & Wa).
  destruct (wrap_x (width w) (move f)) as (X1 & X2 & X3).
  change (x (move f)) with (x f + speedX f) in X1, X2, X3.
  cbn [arc cx cy cr calpha].
  rewrite Wy, Wr, Wa.
  do 3 (split; [reflexivity |]).
  do 3 (split; [assumption |]).
  unfold leaves.
  destruct (Qltb_cases (height w) (y f + speedY f)) as [[Hlow ->] | [Hle ->]].
  - split; [| intros H; lra].
    intros _. cbv zeta. rewrite createFlake_false. cbn [fst set_y].
    cbn [x y radius speedY speedX alpha].
    split; [reflexivity |].
    intros Hr Hwd.
    set (n0 := (calls w + 6 * leaving (height w) (take i (flakes w)))%nat).
    destruct (Hr n0) as [A1 A2]. destruct (Hr (2 + n0)%nat) as [B1 B2].
    destruct (Hr (3 + n0)%nat) as [C1 C2].
    destruct (Hr (4 + n0)%nat) as [D1 D2].
    destruct (Hr (5 + n0)%nat) as [E1 E2].
    assert (Hx : 0 <= random n0 * width w /\
                 random n0 * width w <= width w)
      by (clear - A1 A2 Hwd; split; nra).
    unfold set_y. cbn [x y radius speedY speedX alpha].
    repeat split; lra.
  - split; [intros H; lra |].
    intros _. rewrite Wy, Wr, WsY, WsX, Wa.
    do 5 (split; [reflexivity |]).
    do 2 (split; [assumption |]). assumption.
Qed.

End Facts.

(** The test world of the examples: a field of 100 by 100 where 7 random
    numbers have been used, with two flakes about to leave by the bottom,
    the first also by the right side; the i-th call of [Math.random()]
    gives 1 / (i + 2). *)
Lemma drawSnow_moves_recycles_wraps_witness :
  let random := fun i : nat => 1 # Pos.of_nat (i + 2) in
  let w := mkWorld 100 100 [mkFlake 104 99 1 2 2 1; mkFlake 3 99.5 1.5 1 0 0.5]
                   [] 7 in
  let f := mkFlake 3 99.5 1.5 1 0 0.5 in
  height w < y f + speedY f /\
  leaving (height w) (take 1 (flakes w)) = 1%nat /\
  calls (drawSnow random w)
    = (calls w + 6 * leaving (height w) (flakes w))%nat /\
  exists (g : flake) (c : circle),
    flakes (drawSnow random w) !! 1%nat = Some g /\
    canvas (drawSnow random w) !! 1%nat = Some c /\
    cy c = y f + speedY f /\ cr c = radius f /\ calpha c = alpha f /\
    (width w + 5 < x f + speedX f -> cx c = -5) /\
    (x f + speedX f <= width w + 5 -> x f + speedX f < -5 ->
     cx c = width w + 5) /\
    (x f + speedX f <= width w + 5 -> -5 <= x f + speedX f ->
     cx c = x f + speedX f) /\
    (height w < y f + speedY f ->
     let n := (calls w + 6 * leaving (height w) (take 1 (flakes w)))%nat in
     g = mkFlake (random n * width w)
                 (-5)
                 (0.6 + random (2 + n)%nat * 1.8)
                 (0.5 + random (3 + n)%nat * 1.5 + 0)
                 ((random (4 + n)%nat - 0.5) * 0.4)
                 (0.4 + random (5 + n)%nat * 0.6) /\
     (unit_range random -> 0 <= width w ->
      0 <= x g <= width w /\ 0.6 <= radius g < 2.4 /\
      0.5 <= speedY g < 2 /\ -0.2 <= speedX g < 0.2 /\
      0.4 <= alpha g < 1)) /\
    (y f + speedY f <= height w ->
     y g = y f + speedY f /\
     speedX g = speedX f /\ speedY g = speedY f /\
     radius g = radius f /\ alpha g = alpha f /\
     (width w + 5 < x f + speedX f -> x g = -5) /\
     (x f + speedX f <= width w + 5 -> x f + speedX f < -5 ->
      x g = width w + 5) /\
     (x f + speedX f <= width w + 5 -> -5 <= x f + speedX f ->
      x g = x f + speedX f)).
Proof.
  intros random w f.
  split; [unfold w, f; cbn [height y speedY]; lra |].
  split; [reflexivity |].
  apply (drawSnow_moves_recycles_wraps (fun i : nat => 1 # Pos.of_nat (i + 2))
           (mkWorld 100 100
                    [mkFlake 104 99 1 2 2 1; mkFlake 3 99.5 1.5 1 0 0.5] [] 7)
           1 (mkFlake 3 99.5 1.5 1 0 0.5)).
  reflexivity.
Defined.

Section Bounds.

Variable random : nat -> Q.
Hypothesis random_range : unit_range random.

Lemma unit_mul (r a : Q) : 0 <= r -> r < 1 -> 0 <= a -> 0 <= r * a <= a.
Proof. intros. split; nra. Qed.

Lemma within_true (wd ht : Q) (f : flake) :
  within wd ht f = true <->
  (-5 <= x f <= wd + 5) /\ (-5 <= y f <= ht).
Proof.
  unfold within. rewrite !andb_true_iff, !Qle_bool_iff. tauto.
Qed.

Lemma near_centre_true (wd ht : Q) (f : flake) :
  near_centre wd ht f = true <->
  (wd / 2 - wd * 0.075 <= x f <= wd / 2 + wd * 0.075) /\
  (ht / 2 - ht * 0.075 <= y f <= ht / 2 + ht * 0.075).
Proof.
  unfold near_centre. rewrite !andb_true_iff, !Qle_bool_iff. tauto.
Qed.

Lemma forallb_Forall {A : Type} (p : A -> bool) (l : list A) :
  forallb p l = true <-> Forall (fun a => p a = true) l.
Proof.
  induction l as [| a l IH]; cbn [forallb].
  - split; [constructor | reflexivity].
  - rewrite andb_true_iff, IH. split.
    + intros [Ha Hl]. constructor; assumption.
    + intros H. inversion H; subst. split; assumption.
Qed.

Lemma createFlake_falling (wd ht : Q) (n : nat) :
  0 <= ht -> falling (fst (createFlake random wd ht false n)).
Proof.
  intros Hht. rewrite createFlake_false. unfold falling. cbn [fst y speedY].
  destruct (random_range (1 + n)%nat) as [Ha Hb].
  destruct (random_range (3 + n)%nat) as [Hc Hd].
  pose proof (unit_mul _ _ Ha Hb Hht). split; lra.
Qed.

Lemma createFlake_within (wd ht : Q) (n : nat) :
  0 <= wd -> 0 <= ht ->
  within wd ht (set_y (fst (createFlake random wd ht false n)) (-5)) = true.
Proof.
  intros Hwd Hht. rewrite createFlake_false. apply within_true.
  cbn [fst set_y x y].
  destruct (random_range n) as [Ha Hb].
  pose proof (unit_mul _ _ Ha Hb Hwd). lra.
Qed.

Lemma fill_sound (k : nat) (w : world) :
  sound w -> sound (fill random k w).
Proof.
  revert w. induction k as [| k IH]; intros w Hw; [exact Hw |].
  cbn [fill]. apply IH. destruct Hw as (Hwd & Hht & Hall).
  unfold push_flake.
  pose proof (createFlake_falling (width w) (height w) (calls w) Hht) as Hf.
  destruct (createFlake random (width w) (height w) false (calls w))
    as [f n].
  repeat split; try assumption.
  cbn [flakes set_calls set_flakes]. apply Forall_app. split; [exact Hall |].
  constructor; [exact Hf | constructor].
Qed.

Lemma init_sound (wd ht : Q) : 0 <= wd -> 0 <= ht -> sound (init random wd ht).
Proof.
  intros Hwd Hht. apply fill_sound. repeat split; try assumption. constructor.
Qed.

Lemma slot_after_falling (wd ht : Q) (n : nat) (f g : flake) :
  0 <= ht -> falling f -> slot_after random wd ht n f g -> falling g.
Proof.
  intros Hht [Hy Hs] [[_ ->] | (_ & m & _ & ->)].
  - destruct (wrap_fields wd (move f)) as (Wy & _ & WsY & _).
    unfold falling. rewrite Wy, WsY. cbn [move y speedY set_x set_y]. lra.
  - pose proof (createFlake_falling wd ht m Hht) as [_ Hsp].
    unfold falling. cbn [set_y y speedY]. split; [lra | exact Hsp].
Qed.

Lemma slot_after_within (wd ht : Q) (n : nat) (f g : flake) :
  0 <= wd -> 0 <= ht -> falling f -> slot_after random wd ht n f g ->
  within wd ht g = true.
Proof.
  intros Hwd Hht [Hy Hs] [[Hle ->] | (_ & m & _ & ->)].
  - destruct (wrap_fields wd (move f)) as (Wy & _).
    destruct (wrap_x wd (move f)) as (X1 & X2 & X3).
    apply within_true. rewrite Wy.
    change (y (move f)) with (y f + speedY f).
    split; [| lra].
    destruct (Qlt_le_dec (wd + 5) (x (move f))) as [H1 | H1].
    + rewrite (X1 H1). lra.
    + destruct (Qlt_le_dec (x (move f)) (-5)) as [H2 | H2].
      * rewrite (X2 H1 H2). lra.
      * rewrite (X3 H1 H2). lra.
  - apply createFlake_within; assumption.
Qed.

Lemma Forall2_Forall_r {A B : Type} (R : A -> B -> Prop) (P : A -> Prop)
    (T : B -> Prop) (l : list A) (k : list B) :
  (forall a b, P a -> R a b -> T b) -> Forall P l -> Forall2 R l k ->
  Forall T k.
Proof.
  intros H HP HR. induction HR as [| a b l k Hab _ IH]; [constructor |].
  inversion HP; subst. constructor; [eapply H; eassumption | apply IH; assumption].
Qed.

(** A call of [drawSnow] on a sound world leaves a sound world whose flakes
    are all within the bounds. *)
Lemma drawSnow_sound (w : world) :
  sound w -> sound (drawSnow random w) /\ in_bounds (drawSnow random w) = true.
Proof.
  intros (Hwd & Hht & Hall).
  destruct (drawSnow_spec random w) as (fs & cs & n & -> & HR & _).
  unfold sound, in_bounds. cbn [width height flakes]. split.
  - repeat split; try assumption.
    eapply Forall2_Forall_r; [| exact Hall | exact HR].
    intros a b. apply slot_after_falling. exact Hht.
  - apply forallb_Forall.
    eapply Forall2_Forall_r; [| exact Hall | exact HR].
    intros a b. apply slot_after_within; assumption.
Qed.

Lemma burst_one_sound (w : world) : sound w -> sound (burst_one random w).
Proof.
  intros (Hwd & Hht & Hall). rewrite burst_one_eq.
  unfold sound. cbn [width height flakes]. repeat split; try assumption.
  apply Forall_app. split; [exact Hall |]. constructor; [| constructor].
  unfold falling. cbn [y speedY].
  destruct (random_range (6 + calls w)%nat) as [Ha Hb].
  destruct (random_range (8 + calls w)%nat) as [Hc Hd].
  split; [rewrite half; nra | lra].
Qed.

Lemma burst_one_near_centre (w : world) :
  0 <= width w -> 0 <= height w ->
  exists f : flake,
    flakes (burst_one random w) = flakes w ++ [f] /\
    near_centre (width w) (height w) f = true.
Proof.
  intros Hwd Hht. rewrite burst_one_eq. cbn [flakes].
  eexists. split; [reflexivity |].
  apply near_centre_true. cbn [x y].
  destruct (random_range (5 + calls w)%nat) as [Ha Hb].
  destruct (random_range (6 + calls w)%nat) as [Hc Hd].
  repeat split; nra.
Qed.

Lemma near_centre_within (wd ht : Q) (f : flake) :
  0 <= wd -> 0 <= ht -> near_centre wd ht f = true -> within wd ht f = true.
Proof.
  intros Hwd Hht H. apply near_centre_true in H. apply within_true.
  rewrite !half in H. lra.
Qed.

Lemma burst_one_dims (w : world) :
  width (burst_one random w) = width w /\
  height (burst_one random w) = height w.
Proof. rewrite burst_one_eq. split; reflexivity. Qed.

Lemma burst_one_in_bounds (w : world) :
  sound w -> in_bounds w = true -> in_bounds (burst_one random w) = true.
Proof.
  intros (Hwd & Hht & _) Hb.
  destruct (burst_one_near_centre w Hwd Hht) as (f & Hfs & Hf).
  destruct (burst_one_dims w) as [Hw Hh].
  unfold in_bounds in *. rewrite Hfs, Hw, Hh.
  rewrite forallb_app, Hb. cbn [forallb andb].
  rewrite (near_centre_within _ _ _ Hwd Hht Hf). reflexivity.
Qed.

Lemma burst_loop_sound (k : nat) (w : world) :
  sound w ->
  sound (burst_loop random k w) /\
  (in_bounds w = true -> in_bounds (burst_loop random k w) = true).
Proof.
  revert w. induction k as [| k IH]; intros w Hw; [tauto |].
  cbn [burst_loop].
  destruct (IH (burst_one random w) (burst_one_sound w Hw)) as [Hs Hb].
  split; [exact Hs |]. intros H. apply Hb, burst_one_in_bounds; assumption.
Qed.

Lemma step_sound (w : world) (e : event) :
  sized [e] = true -> sound w -> sound (step random w e).
Proof.
  intros He Hw. destruct e as [| | wd ht]; cbn [step].
  - apply drawSnow_sound, Hw.
  - apply burst_loop_sound, Hw.
  - cbn in He. rewrite andb_true_r, andb_true_iff, !Qle_bool_iff in He.
    destruct Hw as (_ & _ & Hall). destruct He as [Hwd Hht].
    repeat split; assumption.
Qed.

Lemma run_sound (es : list event) (w : world) :
  sized es = true -> sound w -> sound (run random es w).
Proof.
  revert w. induction es as [| e es IH]; intros w He Hw; [exact Hw |].
  cbn [run fold_left]. cbn [sized forallb] in He.
  apply andb_true_iff in He as [He Hes].
  apply IH; [exact Hes |]. apply step_sound; [| exact Hw].
  cbn [sized forallb]. rewrite He. reflexivity.
Qed.

Lemma run_settled (es : list event) (w : world) :
  settled es = true -> sound w -> in_bounds w = true ->
  sound (run random es w) /\ in_bounds (run random es w) = true.
Proof.
  revert w. induction es as [| e es IH]; intros w He Hw Hb; [tauto |].
  cbn [run fold_left]. cbn [settled forallb] in He.
  apply andb_true_iff in He as [He Hes].
  destruct e as [| | wd ht]; [| | discriminate]; cbn [step].
  - destruct (drawSnow_sound w Hw) as [Hs Hb']. apply IH; assumption.
  - destruct (burst_loop_sound 60 w Hw) as [Hs Hb'].
    apply IH; [exact Hes | exact Hs | apply Hb', Hb].
Qed.

(** C4.  Start from the initial fill of a window of size [wd] by [ht]; let
    anything happen ([es]: frames, bursts, resizes to a window with a
    size), then a call of [drawSnow], then any frames and bursts ([later]).
    Every flake of the array then has [x] in [-5, width + 5] and [y] in
    [-5, height]. *)
Theorem flakes_stay_in_bounds (wd ht : Q) (es later : list event) :
  0 <= wd -> 0 <= ht -> sized es = true -> settled later = true ->
  in_bounds (run random (es ++ Tick :: later) (init random wd ht)) = true.
Proof.
  intros Hwd Hht Hes Hlater.
  unfold run. rewrite fold_left_app. cbn [fold_left step].
  pose proof (run_sound es _ Hes (init_sound wd ht Hwd Hht)) as Hs.
  destruct (drawSnow_sound _ Hs) as [Hs' Hb].
  apply (run_settled later _ Hlater Hs' Hb).
Qed.

(** C5.  [burstIceShards] adds 60 flakes at the end of the array, the
    flakes that were there stay as they are, and each of the 60 has [x]
    within [width * 0.075] of [width / 2] and [y] within [height * 0.075]
    of [height / 2]. *)
Theorem burst_adds_sixty_near_centre (w : world) :
  0 <= width w -> 0 <= height w ->
  exists shards : list flake,
    flakes (burstIceShards random w) = flakes w ++ shards /\
    length shards = 60%nat /\
    length (flakes (burstIceShards random w)) = (length (flakes w) + 60)%nat /\
    forallb (near_centre (width w) (height w)) shards = true.
Proof.
  intros Hwd Hht. unfold burstIceShards.
  assert (H : forall (k : nat) (v : world),
             width v = width w -> height v = height w ->
             exists shards : list flake,
               flakes (burst_loop random k v) = flakes v ++ shards /\
               length shards = k /\
               forallb (near_centre (width w) (height w)) shards = true).
  { induction k as [| k IH]; intros v Hvw Hvh.
    - exists []. rewrite app_nil_r. repeat split.
    - cbn [burst_loop].
      destruct (burst_one_near_centre v) as (f & Hfs & Hf);
        [rewrite Hvw; exact Hwd | rewrite Hvh; exact Hht |].
      destruct (burst_one_dims v) as [Hw1 Hh1].
      destruct (IH (burst_one random v)) as (sh & Hsh & Hlen & Hnear);
        [congruence | congruence |].
      exists (f :: sh). rewrite Hsh, Hfs, <- app_assoc.
      split; [reflexivity |]. split; [cbn; lia |].
      cbn [forallb]. rewrite Hnear, andb_true_r.
      rewrite <- Hvw, <- Hvh. exact Hf. }
  destruct (H 60%nat w eq_refl eq_refl) as (sh & Hsh & Hlen & Hnear).
  exists sh. rewrite Hsh, length_app, Hlen. repeat split; assumption.
Qed.

End Bounds.

Lemma half_unit_range : unit_range (fun _ => 1 # 2).
Proof. intros i. split; lra. Qed.

Lemma flakes_stay_in_bounds_witness :
  in_bounds
    (run (fun _ => 1 # 2) ([Burst; Resize 50 50] ++ Tick :: [Burst; Tick])
         (init (fun _ => 1 # 2) 100 100)) = true.
Proof.
  apply (flakes_stay_in_bounds (fun _ => 1 # 2) half_unit_range 100 100
           [Burst; Resize 50 50] [Burst; Tick]);
    [lra | lra | reflexivity | reflexivity].
Defined.

Lemma burst_adds_sixty_near_centre_witness :
  exists shards : list flake,
    flakes (burstIceShards (fun _ => 1 # 2) (mkWorld 100 100 [] [] 0))
      = [] ++ shards /\
    length shards = 60%nat /\
    length (flakes (burstIceShards (fun _ => 1 # 2) (mkWorld 100 100 [] [] 0)))
      = (0 + 60)%nat /\
    forallb (near_centre 100 100) shards = true.
Proof.
  apply (burst_adds_sixty_near_centre (fun _ => 1 # 2) half_unit_range
           (mkWorld 100 100 [] [] 0)); cbn [width height]; lra.
Defined.

Section Length.

Variable random : nat -> Q.

Lemma drawSnow_length (w : world) :
  length (flakes (drawSnow random w)) = length (flakes w).
Proof.
  destruct (drawSnow_spec random w) as (fs & cs & n & -> & HR & _).
  cbn [flakes]. symmetry. exact (Forall2_length _ _ _ HR).
Qed.

Lemma burst_loop_length (k : nat) (w : world) :
  length (flakes (burst_loop random k w)) = (length (flakes w) + k)%nat.
Proof.
  revert w. induction k as [| k IH]; intros w; cbn [burst_loop]; [lia |].
  rewrite IH, burst_one_eq. cbn [flakes]. rewrite length_app. cbn. lia.
Qed.

Lemma fill_length (k : nat) (w : world) :
  length (flakes (fill random k w)) = (length (flakes w) + k)%nat.
Proof.
  revert w. induction k as [| k IH]; intros w; cbn [fill]; [lia |].
  rewrite IH. unfold push_flake. rewrite createFlake_false.
  cbn [flakes set_calls set_flakes]. rewrite length_app. cbn. lia.
Qed.

Lemma step_length (w : world) (e : event) :
  length (flakes (step random w e)) =
  (length (flakes w) + 60 * bursts [e])%nat.
Proof.
  destruct e as [| | wd ht]; cbn [step bursts].
  - rewrite drawSnow_length. lia.
  - unfold burstIceShards. rewrite burst_loop_length. lia.
  - cbn. lia.
Qed.

Lemma run_length (es : list event) (w : world) :
  length (flakes (run random es w)) =
  (length (flakes w) + 60 * bursts es)%nat.
Proof.
  revert w. induction es as [| e es IH]; intros w.
  - cbn. lia.
  - cbn [run fold_left]. fold (run random es (step random w e)).
    rewrite IH, step_length. destruct e; cbn [bursts]; lia.
Qed.

(** C10.  A call of [drawSnow] leaves the length of [flakes] as it is, a
    call of [burstIceShards] adds 60 to it, and nothing removes a flake:
    after any events the array holds 140 flakes plus 60 for each burst
    that has happened, and its length never goes down. *)
Theorem pool_length_140_plus_60_per_burst (wd ht : Q) (es : list event) :
  (forall w : world, length (flakes (drawSnow random w)) = length (flakes w)) /\
  (forall w : world,
     length (flakes (burstIceShards random w)) = (length (flakes w) + 60)%nat) /\
  length (flakes (run random es (init random wd ht))) =
    (140 + 60 * bursts es)%nat /\
  (forall e : event,
     (length (flakes (run random es (init random wd ht))) <=
      length (flakes (run random (es ++ [e]) (init random wd ht))))%nat).
Proof.
  split; [exact drawSnow_length |].
  split; [intros w; apply burst_loop_length |].
  assert (Hinit : length (flakes (init random wd ht)) = 140%nat).
  { unfold init. rewrite fill_length. reflexivity. }
  split.
  - rewrite run_length, Hinit. reflexivity.
  - intros e. unfold run at 2. rewrite fold_left_app. cbn [fold_left].
    fold (run random es (init random wd ht)).
    rewrite step_length. lia.
Qed.

End Length.

(** *** More on the particle field *)

Section Ranges.

Variable random : nat -> Q.
Hypothesis random_range : unit_range random.

Ltac range_of k :=
  let Ha := fresh "Ha" in
  let Hb := fresh "Hb" in
  destruct (random_range k) as [Ha Hb].

(** X1.  [createFlake(false)] makes a flake inside the window, with a
    radius in [0.6, 2.4), a downward speed in [0.5, 2), a sideways speed
    in [-0.2, 0.2) and an alpha in [0.4, 1), from 6 random numbers;
    [createFlake(true)] makes it at 0.4 of the height, with a radius in
    [1, 3) and a downward speed in [1.7, 3.2), from 5 random numbers. *)
Theorem createFlake_ranges (wd ht : Q) (n : nat) :
  0 <= wd -> 0 <= ht ->
  ambient_like wd ht (fst (createFlake random wd ht false n)) /\
  snd (createFlake random wd ht false n) = (6 + n)%nat /\
  (let f := fst (createFlake random wd ht true n) in
   0 <= x f <= wd /\ y f = ht * 0.4 /\
   1 <= radius f < 3 /\ 1.7 <= speedY f < 3.2 /\
   -0.2 <= speedX f < 0.2 /\ 0.4 <= alpha f < 1) /\
  snd (createFlake random wd ht true n) = (5 + n)%nat.
Proof.
  intros Hwd Hht. rewrite createFlake_false, createFlake_true.
  cbn [fst snd]. unfold ambient_like. cbn [x y radius speedY speedX alpha].
  range_of n. range_of (1 + n)%nat. range_of (2 + n)%nat.
  range_of (3 + n)%nat. range_of (4 + n)%nat. range_of (5 + n)%nat.
  pose proof (unit_mul _ _ Ha Hb Hwd).
  pose proof (unit_mul _ _ Ha0 Hb0 Hht).
  repeat split; try reflexivity; lra.
Qed.

Lemma burst_one_shard (w : world) :
  exists f : flake,
    flakes (burst_one random w) = flakes w ++ [f] /\ shard_like f.
Proof.
  rewrite burst_one_eq. cbn [flakes]. eexists. split; [reflexivity |].
  unfold shard_like. cbn [radius speedY speedX alpha].
  range_of (4 + calls w)%nat. range_of (7 + calls w)%nat.
  range_of (8 + calls w)%nat. range_of (9 + calls w)%nat.
  repeat split; lra.
Qed.

(** X2.  Whatever the size of the window, the 60 flakes that
    [burstIceShards] adds have a radius in [1, 3), a downward speed in
    [1, 4), a sideways speed in [-1.5, 1.5) and an alpha in [0.4, 1); the
    flakes that were in the array are left as they are. *)
Theorem burst_shards_are_fast (w : world) :
  exists shards : list flake,
    flakes (burstIceShards random w) = flakes w ++ shards /\
    length shards = 60%nat /\
    Forall shard_like shards.
Proof.
  unfold burstIceShards. generalize 60%nat. intros k. revert w.
  induction k as [| k IH]; intros w.
  - exists []. rewrite app_nil_r. repeat split. constructor.
  - cbn [burst_loop].
    destruct (burst_one_shard w) as (f & Hf & Hlike).
    destruct (IH (burst_one random w)) as (sh & Hsh & Hlen & Hall).
    exists (f :: sh). rewrite Hsh, Hf, <- app_assoc.
    split; [reflexivity |]. split; [cbn; lia |].
    constructor; assumption.
Qed.

(** X3.  What a call of [drawSnow] paints depends only on the flakes and
    on the width before the call, not on what was painted before nor on
    [Math.random()]: one circle per flake, in the order of the array, at
    the place the flake has moved to, brought back to the other side when
    it left by a side.  The centre of every circle is within
    [-5, width + 5] horizontally, and a flake that has left by the bottom
    is painted where it left, below [height], not at the top. *)
Theorem drawSnow_paints_every_flake (w : world) :
  0 <= width w ->
  canvas (drawSnow random w)
    = map (fun f => arc (wrap (width w) (move f))) (flakes w) /\
  length (canvas (drawSnow random w)) = length (flakes w) /\
  Forall (fun c => -5 <= cx c <= width w + 5) (canvas (drawSnow random w)) /\
  (forall (i : nat) (f : flake) (c : circle),
     flakes w !! i = Some f -> canvas (drawSnow random w) !! i = Some c ->
     height w < y f + speedY f -> height w < cy c).
Proof.
  intros Hwd.
  destruct (drawSnow_spec random w) as (fs & cs & n & Heq & _ & HD).
  assert (Hcs : cs = map (fun f => arc (wrap (width w) (move f))) (flakes w)).
  { clear Heq. induction HD as [| f c l k Hc _ IH]; [reflexivity |].
    cbn [map]. rewrite Hc, IH. reflexivity. }
  rewrite Heq. cbn [canvas]. rewrite Hcs.
  split; [reflexivity |]. split; [apply length_map |]. split.
  - apply Forall_map. apply Forall_forall. intros f _. cbn [arc cx].
    destruct (wrap_x (width w) (move f)) as (X1 & X2 & X3).
    destruct (Qlt_le_dec (width w + 5) (x (move f))) as [H1 | H1].
    + rewrite (X1 H1). lra.
    + destruct (Qlt_le_dec (x (move f)) (-5)) as [H2 | H2].
      * rewrite (X2 H1 H2). lra.
      * rewrite (X3 H1 H2). lra.
  - intros i f c Hi Hc Hlow.
    rewrite list_lookup_fmap, Hi in Hc. cbn in Hc.
    injection Hc as <-. cbn [arc cy].
    destruct (wrap_fields (width w) (move f)) as (Wy & _).
    rewrite Wy. exact Hlow.
Qed.

End Ranges.

Lemma createFlake_ranges_witness :
  ambient_like 100 50 (fst (createFlake (fun _ => 1 # 2) 100 50 false 0%nat)) /\
  snd (createFlake (fun _ => 1 # 2) 100 50 false 0%nat) = (6 + 0)%nat /\
  (let f := fst (createFlake (fun _ => 1 # 2) 100 50 true 0%nat) in
   0 <= x f <= 100 /\ y f = 50 * 0.4 /\
   1 <= radius f < 3 /\ 1.7 <= speedY f < 3.2 /\
   -0.2 <= speedX f < 0.2 /\ 0.4 <= alpha f < 1) /\
  snd (createFlake (fun _ => 1 # 2) 100 50 true 0%nat) = (5 + 0)%nat.
Proof.
  apply (createFlake_ranges (fun _ => 1 # 2) half_unit_range 100 50 0%nat);
    lra.
Defined.

Lemma burst_shards_are_fast_witness :
  exists shards : list flake,
    flakes (burstIceShards (fun _ => 1 # 2) (mkWorld 100 50 [] [] 0))
      = [] ++ shards /\
    length shards = 60%nat /\
    Forall shard_like shards.
Proof.
  apply (burst_shards_are_fast (fun _ => 1 # 2) half_unit_range
           (mkWorld 100 50 [] [] 0)).
Defined.

Lemma drawSnow_paints_every_flake_witness :
  let w := mkWorld 100 50 [mkFlake 104 49 1 2 2 1] [mkCircle 0 0 1 1] 7 in
  canvas (drawSnow (fun _ => 1 # 2) w)
    = map (fun f => arc (wrap (width w) (move f))) (flakes w) /\
  length (canvas (drawSnow (fun _ => 1 # 2) w)) = length (flakes w) /\
  Forall (fun c => -5 <= cx c <= width w + 5)
         (canvas (drawSnow (fun _ => 1 # 2) w)) /\
  (forall (i : nat) (f : flake) (c : circle),
     flakes w !! i = Some f ->
     canvas (drawSnow (fun _ => 1 # 2) w) !! i = Some c ->
     height w < y f + speedY f -> height w < cy c).
Proof.
  apply (drawSnow_paints_every_flake (fun _ => 1 # 2)
           (mkWorld 100 50 [mkFlake 104 49 1 2 2 1] [mkCircle 0 0 1 1] 7)).
  cbn [width]. lra.
Defined.

Section Recycling.

Variable random : nat -> Q.
Hypothesis random_range : unit_range random.

Lemma slot_after_brisk (wd ht : Q) (n : nat) (f g : flake) :
  brisk f -> slot_after random wd ht n f g -> brisk g.
Proof.
  intros [Hy Hs] [[_ ->] | (_ & m & _ & ->)].
  - destruct (wrap_fields wd (move f)) as (Wy & _ & WsY & _).
    unfold brisk. rewrite Wy, WsY. cbn [move y speedY set_x set_y]. lra.
  - rewrite createFlake_false. unfold brisk. cbn [fst set_y y speedY].
    destruct (random_range (3 + m)%nat) as [Ha Hb]. lra.
Qed.

Lemma drawSnow_lively (w : world) :
  lively w ->
  lively (drawSnow random w) /\
  width (drawSnow random w) = width w /\
  height (drawSnow random w) = height w.
Proof.
  intros (Hwd & Hht & Hall).
  destruct (drawSnow_spec random w) as (fs & cs & n & -> & HR & _).
  unfold lively. cbn [width height flakes].
  repeat split; try assumption.
  eapply Forall2_Forall_r; [| exact Hall | exact HR].
  intros a b. apply slot_after_brisk.
Qed.

Lemma fill_lively (k : nat) (w : world) :
  lively w -> lively (fill random k w).
Proof.
  revert w. induction k as [| k IH]; intros w Hw; [exact Hw |].
  cbn [fill]. apply IH. destruct Hw as (Hwd & Hht & Hall).
  unfold push_flake. rewrite createFlake_false.
  unfold lively. cbn [width height flakes set_calls set_flakes].
  repeat split; try assumption.
  apply Forall_app. split; [exact Hall |]. constructor; [| constructor].
  unfold brisk. cbn [y speedY].
  destruct (random_range (1 + calls w)%nat) as [Ha Hb].
  destruct (random_range (3 + calls w)%nat) as [Hc Hd].
  pose proof (unit_mul _ _ Ha Hb Hht). lra.
Qed.

Lemma burst_loop_lively (k : nat) (w : world) :
  lively w -> lively (burst_loop random k w).
Proof.
  revert w. induction k as [| k IH]; intros w Hw; [exact Hw |].
  cbn [burst_loop]. apply IH. destruct Hw as (Hwd & Hht & Hall).
  rewrite burst_one_eq. unfold lively. cbn [width height flakes].
  repeat split; try assumption.
  apply Forall_app. split; [exact Hall |]. constructor; [| constructor].
  unfold brisk. cbn [y speedY].
  destruct (random_range (6 + calls w)%nat) as [Ha Hb].
  destruct (random_range (8 + calls w)%nat) as [Hc Hd].
  split; [rewrite half; nra | lra].
Qed.

Lemma run_lively (es : list event) (w : world) :
  sized es = true -> lively w -> lively (run random es w).
Proof.
  revert w. induction es as [| e es IH]; intros w He Hw; [exact Hw |].
  cbn [run fold_left]. cbn [sized forallb] in He.
  apply andb_true_iff in He as [He Hes].
  apply IH; [exact Hes |].
  destruct e as [| | wd ht]; cbn [step].
  - apply drawSnow_lively, Hw.
  - apply burst_loop_lively, Hw.
  - rewrite andb_true_iff, !Qle_bool_iff in He.
    destruct Hw as (_ & _ & Hall). destruct He as [Hwd Hht].
    repeat split; assumption.
Qed.

Lemma run_ticks_S (k : nat) (w : world) :
  run random (repeat Tick (S k)) w = run random (repeat Tick k) (drawSnow random w).
Proof. reflexivity. Qed.

Lemma inject_S (n : nat) :
  inject_Z (Z.of_nat (S n)) == inject_Z (Z.of_nat n) + 1.
Proof. rewrite Nat2Z.inj_succ. unfold Z.succ. rewrite inject_Z_plus. reflexivity. Qed.

(** Either the slot has been given a new flake in one of the first [n]
    frames, or its flake has gone down by at least half a pixel a frame
    and is still above the bottom. *)
Lemma recycled_or_falling (n : nat) :
  forall (w : world) (i : nat) (f : flake),
    lively w -> flakes w !! i = Some f ->
    (exists (k m : nat),
       (1 <= k <= n)%nat /\
       flakes (run random (repeat Tick k) w) !! i =
       Some (set_y (fst (createFlake random (width w) (height w) false m))
                   (-5))) \/
    (exists g : flake,
       flakes (run random (repeat Tick n) w) !! i = Some g /\
       y f + inject_Z (Z.of_nat n) * 0.5 <= y g /\
       ((1 <= n)%nat -> y g <= height w)).
Proof.
  induction n as [| n IH]; intros w i f Hw Hi.
  - right. exists f. split; [exact Hi |].
    change (inject_Z (Z.of_nat 0)) with 0. split; [lra | lia].
  - destruct (drawSnow_lively w Hw) as (Hw1 & Hwd1 & Hht1).
    destruct (drawSnow_spec random w) as (fs & cs & c & Heq & HR & _).
    destruct (lookup_Forall2_l _ _ _ _ _ HR Hi) as (g1 & Hg1 & Hslot).
    assert (Hi1 : flakes (drawSnow random w) !! i = Some g1)
      by (rewrite Heq; exact Hg1).
    destruct Hslot as [[Hle ->] | (Hlow & m & _ & ->)].
    + destruct (wrap_fields (width w) (move f)) as (Wy & _ & WsY & _).
      destruct (IH _ i _ Hw1 Hi1) as [(k & m & Hk & Hrec) | (g & Hg & Hyg & Hht)].
      * left. exists (S k), m. split; [lia |].
        rewrite run_ticks_S, Hrec, Hwd1, Hht1. reflexivity.
      * right. exists g. rewrite run_ticks_S. split; [exact Hg |].
        rewrite Wy in Hyg. cbn [move y set_x set_y] in Hyg.
        destruct Hw as (_ & _ & Hall).
        pose proof (proj1 (Forall_lookup _ _) Hall i f Hi) as [_ Hsp].
        split; [rewrite inject_S; lra |].
        intros _. destruct n as [| n].
        -- cbn in Hg. rewrite Hi1 in Hg. injection Hg as <-.
           rewrite Wy. cbn [move y set_x set_y]. exact Hle.
        -- rewrite <- Hht1. apply Hht. lia.
    + left. exists 1%nat, m. split; [lia |]. exact Hi1.
Qed.

(** X4.  Every flake comes back to the top: in a world reached from the
    initial fill by frames, bursts and resizes, once more than
    2 * (height + 5) frames have gone by without a resize, every slot of
    the array has been given a new flake by [createFlake(false)], put at
    [y = -5]; so the shards of a burst end up as ambient flakes. *)
Theorem every_flake_is_recycled (wd ht : Q) (es : list event) (i n : nat) :
  0 <= wd -> 0 <= ht -> sized es = true ->
  (i < length (flakes (run random es (init random wd ht))))%nat ->
  height (run random es (init random wd ht)) + 5
    < inject_Z (Z.of_nat n) * 0.5 ->
  exists (k m : nat),
    (1 <= k <= n)%nat /\
    flakes (run random (repeat Tick k) (run random es (init random wd ht)))
      !! i =
    Some (set_y (fst (createFlake random
                        (width (run random es (init random wd ht)))
                        (height (run random es (init random wd ht)))
                        false m)) (-5)).
Proof.
  intros Hwd Hht Hes Hi Hn.
  set (w := run random es (init random wd ht)) in *.
  assert (Hw : lively w).
  { apply run_lively; [exact Hes |]. apply fill_lively.
    repeat split; try assumption. constructor. }
  destruct (lookup_lt_is_Some_2 _ _ Hi) as [f Hf].
  destruct (recycled_or_falling n w i f Hw Hf) as [H | (g & Hg & Hyg & Hle)];
    [exact H | exfalso].
  destruct Hw as (_ & Hh & Hall).
  pose proof (proj1 (Forall_lookup _ _) Hall i f Hf) as [Hy _].
  assert (Hn1 : (1 <= n)%nat).
  { destruct n as [| n]; [| lia].
    change (inject_Z (Z.of_nat 0)) with 0 in Hn. lra. }
  specialize (Hle Hn1). lra.
Qed.

End Recycling.

Lemma every_flake_is_recycled_witness :
  exists (k m : nat),
    (1 <= k <= 32)%nat /\
    flakes (run (fun _ => 1 # 2) (repeat Tick k)
              (run (fun _ => 1 # 2) [Burst] (init (fun _ => 1 # 2) 20 10)))
      !! 150%nat =
    Some (set_y (fst (createFlake (fun _ => 1 # 2)
                        (width (run (fun _ => 1 # 2) [Burst]
                                  (init (fun _ => 1 # 2) 20 10)))
                        (height (run (fun _ => 1 # 2) [Burst]
                                   (init (fun _ => 1 # 2) 20 10)))
                        false m)) (-5)).
Proof.
  apply (every_flake_is_recycled (fun _ => 1 # 2) half_unit_range 20 10
           [Burst] 150 32);
    [lra | lra | reflexivity | vm_compute; lia | vm_compute; reflexivity].
Defined.

End SnowProps.

(** ** The sequence between the two screens *)

Module SequencerProps.

Import Sequencer.

Lemma has_app (c : string) (l k : classList) :
  has c (l ++ k) = has c l || has c k.
Proof. unfold has. apply existsb_app. Qed.

Lemma has_add (c c' : string) (l : classList) :
  has c (add c' l) = String.eqb c c' || has c l.
Proof.
  unfold add. destruct (has c' l) eqn:E.
  - destruct (String.eqb_spec c c') as [-> | _]; [| reflexivity].
    rewrite E. reflexivity.
  - rewrite has_app. cbn [has existsb]. rewrite orb_false_r. apply orb_comm.
Qed.

Lemma has_remove (c : string) (cs : list string) (l : classList) :
  has c (remove cs l) = negb (has c cs) && has c l.
Proof.
  unfold remove. induction l as [| a l IH]; cbn [List.filter].
  - cbn [has existsb]. rewrite andb_false_r. reflexivity.
  - assert (Ha : has c (a :: l) = String.eqb c a || has c l) by reflexivity.
    rewrite Ha. destruct (has a cs) eqn:E; cbn [negb].
    + rewrite IH. destruct (String.eqb_spec c a) as [-> | _]; [| reflexivity].
      rewrite E. reflexivity.
    + assert (Hb : forall k, has c (a :: k) = String.eqb c a || has c k)
        by reflexivity.
      rewrite Hb, IH.
      destruct (String.eqb_spec c a) as [-> | _]; [| reflexivity].
      rewrite E. reflexivity.
Qed.

(** C3.  With the durations of the script (4500, 900, 5000 and 1000 ms),
    whatever the page looked like before, if [startSequence] runs at time 0
    with no timer pending, the page is in state ShowingA at 4000 ms,
    Exploding at 4600 ms, ShowingB at 5800 ms, FadingOut at 10700 ms and
    ShowingA again at 11800 ms. *)
Theorem sequence_timing (random : nat -> Q) (d : dom) (w : Snow.world) :
  SHOW_CHRISTMAS = 4500%Z /\ EXPLODE_DURATION = 900%Z /\
  SHOW_ICY = 5000%Z /\ LOOP_PAUSE = 1000%Z /\
  state_at random 4000 (startSequence (mkPage d w 0 [])) = Some ShowingA /\
  state_at random 4600 (startSequence (mkPage d w 0 [])) = Some Exploding /\
  state_at random 5800 (startSequence (mkPage d w 0 [])) = Some ShowingB /\
  state_at random 10700 (startSequence (mkPage d w 0 [])) = Some FadingOut /\
  state_at random 11800 (startSequence (mkPage d w 0 [])) = Some ShowingA.
Proof.
  do 4 (split; [reflexivity |]).
  cbv -[Snow.burstIceShards has add remove].
  rewrite !has_add, !has_remove, ?has_add, ?has_remove.
  repeat split.
Qed.

(** C1.  The gate calls [startSequence] once when both images are ready
    before the script runs, and once when both become ready after it; but
    when one image is ready before and the other after, the only [load]
    event brings [loaded] to 1, and [startSequence] is never called. *)
Theorem gate_misses_mixed_readiness :
  starts (gate_after Before Before) = 1%nat /\
  starts (gate_after After After) = 1%nat /\
  gate_after Before After = mkGate true 1 0 /\
  gate_after After Before = mkGate true 1 0.
Proof. repeat split. Qed.

(** *** More on the sequence *)

Section Cycle.

Variable random : nat -> Q.

Lemma advance_fire (fuel : nat) (t : Z) (e : dom) (sn : Snow.world)
    (nw : Z) (tm : timer) :
  (due tm <= t)%Z ->
  advance random (S fuel) t (mkPage e sn nw [tm]) =
  advance random fuel t (fire random (action tm) (mkPage e sn (due tm) [])).
Proof.
  intros H. cbn [advance timers next_due elements snow].
  apply Z.leb_le in H. rewrite H. reflexivity.
Qed.

Lemma advance_wait (fuel : nat) (t : Z) (e : dom) (sn : Snow.world)
    (nw : Z) (tm : timer) :
  (t < due tm)%Z ->
  advance random fuel t (mkPage e sn nw [tm]) =
  Some (mkPage e sn (Z.max nw t) [tm]).
Proof.
  intros H. apply Z.leb_gt in H.
  destruct fuel; cbn [advance timers next_due elements snow now];
    rewrite H; reflexivity.
Qed.

Lemma state_started (d : dom) (w : Snow.world) (t : Z) :
  state_of (elements (startSequence (mkPage d w t []))) = ShowingA.
Proof.
  cbv -[has add remove]. rewrite !has_add, !has_remove. reflexivity.
Qed.

Lemma fire_Explode (e : dom) (sn : Snow.world) (nw : Z) :
  fire random Explode (mkPage e sn nw []) =
  mkPage (elements (fire random Explode (mkPage e sn nw [])))
         (Snow.burstIceShards random sn) nw
         [mkTimer (nw + EXPLODE_DURATION) ShowIcy].
Proof. reflexivity. Qed.

Lemma fire_ShowIcy (e : dom) (sn : Snow.world) (nw : Z) :
  fire random ShowIcy (mkPage e sn nw []) =
  mkPage (elements (fire random ShowIcy (mkPage e sn nw []))) sn nw
         [mkTimer (nw + SHOW_ICY) FadeOut].
Proof. reflexivity. Qed.

Lemma fire_FadeOut (e : dom) (sn : Snow.world) (nw : Z) :
  fire random FadeOut (mkPage e sn nw []) =
  mkPage (elements (fire random FadeOut (mkPage e sn nw []))) sn nw
         [mkTimer (nw + LOOP_PAUSE) Restart].
Proof. reflexivity. Qed.

Lemma startSequence_shape (e : dom) (sn : Snow.world) (nw : Z) :
  startSequence (mkPage e sn nw []) =
  mkPage (elements (startSequence (mkPage e sn nw []))) sn nw
         [mkTimer (nw + SHOW_CHRISTMAS) Explode].
Proof. reflexivity. Qed.

Ltac unfold_durations :=
  unfold cycle, SHOW_CHRISTMAS, EXPLODE_DURATION, SHOW_ICY, LOOP_PAUSE in *.

(** One cycle: four callbacks bring the page from a start at time [T] to
    the next start, at [T + cycle], with one burst in between. *)
Lemma one_cycle (fuel : nat) (t T : Z) (d : dom) (w : Snow.world) :
  (T + cycle <= t)%Z ->
  exists d' : dom,
    advance random (4 + fuel) t (startSequence (mkPage d w T [])) =
    advance random fuel t
      (startSequence
         (mkPage d' (Snow.burstIceShards random w) (T + cycle) [])).
Proof.
  intros Ht. eexists.
  rewrite (startSequence_shape d w T).
  change (4 + fuel)%nat with (S (S (S (S fuel)))).
  rewrite advance_fire by (cbn [due]; unfold_durations; lia).
  cbn [action due]. rewrite fire_Explode.
  rewrite advance_fire by (cbn [due]; unfold_durations; lia).
  cbn [action due]. rewrite fire_ShowIcy.
  rewrite advance_fire by (cbn [due]; unfold_durations; lia).
  cbn [action due]. rewrite fire_FadeOut.
  rewrite advance_fire by (cbn [due]; unfold_durations; lia).
  cbn [action due fire].
  replace (T + SHOW_CHRISTMAS + EXPLODE_DURATION + SHOW_ICY + LOOP_PAUSE)%Z
    with (T + cycle)%Z by (unfold_durations; lia).
  reflexivity.
Qed.

Lemma many_cycles (n : nat) :
  forall (fuel : nat) (t T : Z) (d : dom) (w : Snow.world),
    (T + cycle * Z.of_nat n <= t)%Z ->
    exists (d' : dom) (w' : Snow.world),
      advance random (4 * n + fuel) t (startSequence (mkPage d w T [])) =
      advance random fuel t
        (startSequence (mkPage d' w' (T + cycle * Z.of_nat n) [])) /\
      length (Snow.flakes w') = (length (Snow.flakes w) + 60 * n)%nat.
Proof.
  induction n as [| n IH]; intros fuel t T d w Ht.
  - exists d, w. replace (T + cycle * Z.of_nat 0)%Z with T by lia.
    split; [reflexivity | lia].
  - assert (Hc : (0 < cycle)%Z) by (unfold_durations; lia).
    destruct (one_cycle (4 * n + fuel) t T d w) as [d1 H1]; [nia |].
    destruct (IH fuel t (T + cycle)%Z d1 (Snow.burstIceShards random w))
      as (d' & w' & H2 & Hlen); [nia |].
    exists d', w'.
    replace (4 * S n + fuel)%nat with (4 + (4 * n + fuel))%nat by lia.
    rewrite H1, H2.
    replace (T + cycle + cycle * Z.of_nat n)%Z
      with (T + cycle * Z.of_nat (S n))%Z by nia.
    split; [reflexivity |].
    rewrite Hlen. unfold Snow.burstIceShards.
    rewrite SnowProps.burst_loop_length. lia.
Qed.

(** Inside a cycle that starts at [T]: the state and the number of
    bursts at [T + off]. *)
Lemma inside_cycle (fuel : nat) (T off : Z) (d : dom) (w : Snow.world) :
  (0 <= off < cycle)%Z ->
  exists q : page,
    advance random (3 + fuel) (T + off) (startSequence (mkPage d w T []))
      = Some q /\
    state_of (elements q) = state_in_cycle off /\
    now q = (T + off)%Z /\
    length (Snow.flakes (snow q)) =
      (length (Snow.flakes w) +
       60 * (if (SHOW_CHRISTMAS <=? off)%Z then 1 else 0))%nat.
Proof.
  intros Hoff.
  assert (Hb : forall v : Snow.world,
             length (Snow.flakes (Snow.burstIceShards random v))
             = (length (Snow.flakes v) + 60)%nat)
    by (intros v; apply SnowProps.burst_loop_length).
  unfold state_in_cycle.
  rewrite (startSequence_shape d w T).
  change (3 + fuel)%nat with (S (S (S fuel))).
  destruct (Z.ltb_spec off SHOW_CHRISTMAS) as [H1 | H1].
  { rewrite advance_wait by (cbn [due]; lia).
    eexists. split; [reflexivity |]. cbn [elements snow now].
    split; [apply state_started |]. split; [lia |].
    destruct (Z.leb_spec SHOW_CHRISTMAS off); lia. }
  rewrite advance_fire by (cbn [due]; lia).
  cbn [action due]. rewrite fire_Explode.
  destruct (Z.leb_spec SHOW_CHRISTMAS off) as [_ | ?]; [| lia].
  destruct (Z.ltb_spec off (SHOW_CHRISTMAS + EXPLODE_DURATION)) as [H2 | H2].
  { rewrite advance_wait by (cbn [due]; lia).
    eexists. split; [reflexivity |]. cbn [elements snow now].
    split.
    - cbv -[has add remove Snow.burstIceShards].
      rewrite !has_add, !has_remove. reflexivity.
    - split; [unfold_durations; lia |]. rewrite Hb. lia. }
  rewrite advance_fire by (cbn [due]; lia).
  cbn [action due]. rewrite fire_ShowIcy.
  destruct (Z.ltb_spec off (SHOW_CHRISTMAS + EXPLODE_DURATION + SHOW_ICY))
    as [H3 | H3].
  { rewrite advance_wait by (cbn [due]; lia).
    eexists. split; [reflexivity |]. cbn [elements snow now].
    split.
    - cbv -[has add remove Snow.burstIceShards]. rewrite !has_add.
      reflexivity.
    - split; [unfold_durations; lia |]. rewrite Hb. lia. }
  rewrite advance_fire by (cbn [due]; lia).
  cbn [action due]. rewrite fire_FadeOut.
  rewrite advance_wait by (cbn [due]; unfold_durations; lia).
  eexists. split; [reflexivity |]. cbn [elements snow now].
  split.
  - cbv -[has add remove Snow.burstIceShards].
    rewrite !has_remove, !has_add. reflexivity.
  - split; [unfold_durations; lia |]. rewrite Hb. lia.
Qed.

Lemma sequence_at (n : nat) (off : Z) (d : dom) (w : Snow.world) :
  (0 <= off < cycle)%Z ->
  exists q : page,
    advance random (4 * S n) (cycle * Z.of_nat n + off)
      (startSequence (mkPage d w 0 [])) = Some q /\
    state_of (elements q) = state_in_cycle off /\
    length (Snow.flakes (snow q)) =
      (length (Snow.flakes w) +
       60 * (n + if (SHOW_CHRISTMAS <=? off)%Z then 1 else 0))%nat.
Proof.
  intros Hoff.
  destruct (many_cycles n 4 (cycle * Z.of_nat n + off) 0 d w)
    as (d' & w' & Hadv & Hlen); [lia |].
  destruct (inside_cycle 1 (0 + cycle * Z.of_nat n) off d' w' Hoff)
    as (q & Hq & Hst & _ & Hsn).
  exists q.
  replace (4 * S n)%nat with (4 * n + 4)%nat by lia.
  rewrite Hadv.
  replace (cycle * Z.of_nat n + off)%Z
    with (0 + cycle * Z.of_nat n + off)%Z by lia.
  split; [exact Hq |]. split; [exact Hst |]. rewrite Hsn, Hlen. lia.
Qed.

(** X5.  The sequence is periodic: started at time 0 on any page, and
    given four timer callbacks a cycle, at [off] milliseconds into its
    n-th cycle of 11400 ms the page is in state ShowingA for [off] below
    4500, Exploding below 5400, ShowingB below 10400, and FadingOut
    after; the event loop reaches that time with the fuel given. *)
Theorem sequence_is_periodic (n : nat) (off : Z) (d : dom) (w : Snow.world) :
  (0 <= off < 11400)%Z ->
  cycle = 11400%Z /\
  option_map (fun q => state_of (elements q))
    (advance random (4 * S n) (11400 * Z.of_nat n + off)
       (startSequence (mkPage d w 0 []))) =
  Some (if (off <? 4500)%Z then ShowingA
        else if (off <? 5400)%Z then Exploding
        else if (off <? 10400)%Z then ShowingB
        else FadingOut).
Proof.
  intros Hoff. split; [reflexivity |].
  destruct (sequence_at n off d w Hoff) as (q & Hq & Hst & _).
  change 11400%Z with cycle. rewrite Hq. cbn [option_map]. rewrite Hst.
  reflexivity.
Qed.

(** X6.  The sequence bursts once a cycle, 4500 ms after the start of the
    cycle, and nothing it does removes a flake: at [off] milliseconds
    into the n-th cycle the array of the page holds 60 more flakes for
    each of the [n] cycles gone by, and 60 more once [off] has reached
    4500. *)
Theorem sequence_grows_the_pool (n : nat) (off : Z) (d : dom)
    (w : Snow.world) :
  (0 <= off < 11400)%Z ->
  option_map (fun q => length (Snow.flakes (snow q)))
    (advance random (4 * S n) (11400 * Z.of_nat n + off)
       (startSequence (mkPage d w 0 []))) =
  Some (length (Snow.flakes w) +
        60 * (n + if (4500 <=? off)%Z then 1 else 0))%nat.
Proof.
  intros Hoff.
  destruct (sequence_at n off d w Hoff) as (q & Hq & _ & Hlen).
  change 11400%Z with cycle. rewrite Hq. cbn [option_map]. rewrite Hlen.
  reflexivity.
Qed.

End Cycle.

Lemma sequence_is_periodic_witness :
  cycle = 11400%Z /\
  option_map (fun q => state_of (elements q))
    (advance (fun _ => 1 # 2) (4 * 3) (11400 * Z.of_nat 2 + 5000)
       (startSequence
          (mkPage (mkDom [] ["shake"]%string [] None None)
                  (Snow.mkWorld 10 10 [] [] 0) 0 []))) =
  Some (if (5000 <? 4500)%Z then ShowingA
        else if (5000 <? 5400)%Z then Exploding
        else if (5000 <? 10400)%Z then ShowingB
        else FadingOut).
Proof.
  apply (sequence_is_periodic (fun _ => 1 # 2) 2 5000
           (mkDom [] ["shake"]%string [] None None)
           (Snow.mkWorld 10 10 [] [] 0)).
  lia.
Defined.

Lemma sequence_grows_the_pool_witness :
  option_map (fun q => length (Snow.flakes (snow q)))
    (advance (fun _ => 1 # 2) (4 * 3) (11400 * Z.of_nat 2 + 5000)
       (startSequence
          (mkPage (mkDom [] [] [] None None)
                  (Snow.init (fun _ => 1 # 2) 10 10) 0 []))) =
  Some (length (Snow.flakes (Snow.init (fun _ => 1 # 2) 10 10)) +
        60 * (2 + if (4500 <=? 5000)%Z then 1 else 0))%nat.
Proof.
  apply (sequence_grows_the_pool (fun _ => 1 # 2) 2 5000
           (mkDom [] [] [] None None) (Snow.init (fun _ => 1 # 2) 10 10)).
  lia.
Defined.

Section Running.

Variable random : nat -> Q.




End Running.


(** X8.  Whatever the page looks like, [startSequence] leaves it in state
    ShowingA with the logo at opacity "1" and the day screen at "0"; it
    removes only the flags it names ("exploding" and "icy" on the overlay,
    "shake" on the logo, "breathe" on the day screen), so any other class
    of the three elements stays; and it cancels no timer: the timers that
    were pending are still pending, with the new one after them. *)
Theorem startSequence_from_any_page (p : page) (c : string) :
  state_of (elements (startSequence p)) = ShowingA /\
  christmasLogo_opacity (elements (startSequence p)) = Some "1"%string /\
  dayScreen_opacity (elements (startSequence p)) = Some "0"%string /\
  has c (overlay (elements (startSequence p)))
    = negb (has c ["exploding"; "icy"]%string) && has c (overlay (elements p)) /\
  has c (christmasLogo (elements (startSequence p)))
    = String.eqb c "breathe"
      || negb (String.eqb c "shake") && has c (christmasLogo (elements p)) /\
  has c (dayScreen (elements (startSequence p)))
    = negb (String.eqb c "breathe") && has c (dayScreen (elements p)) /\
  timers (startSequence p)
    = timers p ++ [mkTimer (now p + 4500) Explode] /\
  Snow.flakes (snow (startSequence p)) = Snow.flakes (snow p).
Proof.
  destruct p as [d w nw tms].
  split.
  { cbv -[has add remove app]. rewrite !has_add, !has_remove. reflexivity. }
  split; [reflexivity |]. split; [reflexivity |].
  cbn [startSequence setTimeout set_elements elements resetStates overlay
       christmasLogo dayScreen timers now snow].
  split; [apply has_remove |].
  split.
  { rewrite has_add, has_remove. cbn [has existsb].
    destruct (String.eqb_spec c "breathe") as [-> | Hb]; [reflexivity |].
    rewrite !orb_false_r. cbn [orb]. reflexivity. }
  split.
  { rewrite has_remove. cbn [has existsb]. rewrite orb_false_r. reflexivity. }
  split; reflexivity.
Qed.

(** X9.  Whatever the [complete] flags when the script runs, and however
    many [load] events come afterwards, the gate calls [startSequence] at
    most once: once when both images were complete, or as soon as two
    [load] events have come; never otherwise, and never a second time. *)
Theorem gate_starts_at_most_once (logo_complete day_complete : bool)
    (n : nat) :
  starts (Nat.iter n on_load (register logo_complete day_complete))
    = (if logo_complete && day_complete then 1
       else if (2 <=? n)%nat then 1 else 0)%nat /\
  (starts (Nat.iter n on_load (register logo_complete day_complete)) <= 1)%nat.
Proof.
  assert (H : starts (Nat.iter n on_load (register logo_complete day_complete))
              = (if logo_complete && day_complete then 1
                 else if (2 <=? n)%nat then 1 else 0)%nat).
  { unfold register. destruct (logo_complete && day_complete); cbv iota.
    - assert (Hg : Nat.iter n on_load (mkGate false 0 1) = mkGate false 0 1).
      { induction n as [| n IHn]; [reflexivity |].
        rewrite Nat.iter_succ, IHn. reflexivity. }
      rewrite Hg. reflexivity.
    - assert (Hg : Nat.iter n on_load (mkGate true 0 0)
                   = mkGate true n (if (2 <=? n)%nat then 1 else 0)).
      { induction n as [| n IHn]; [reflexivity |].
        rewrite Nat.iter_succ, IHn. unfold on_load.
        cbn [listening loaded starts].
        destruct n as [| [| n]]; reflexivity. }
      rewrite Hg. reflexivity. }
  split; [exact H |]. rewrite H.
  destruct (logo_complete && day_complete); [lia |].
  destruct (2 <=? n)%nat; lia.
Qed.

End SequencerProps.

(** ** The logo scene and its timeline *)

Module TimelineProps.

Import Timeline.

Lemma render_all_with (t : Q) (tws : list tween) :
  forall (tss : list tstate) (s : scene),
    render_all t tws tss s =
    render_with (map (place_of t) tws) (fun a d => (t - a) / d) tws tss s.
Proof.
  induction tws as [| tw tws IH]; intros tss s; [reflexivity |].
  destruct tss as [| ts tss]; [reflexivity |].
  cbn [render_all render_with map]. unfold render_tween, progress.
  destruct (render_at _ _ tw ts s) as [ts1 s1]. rewrite IH. reflexivity.
Qed.

Lemma frame_frame_with (t : Q) (pl : player) :
  frame timeline t pl =
  frame_with (map (place_of t) timeline) (fun a d => (t - a) / d) pl.
Proof. unfold frame, frame_with. rewrite render_all_with. reflexivity. Qed.

Ltac decide_cut :=
  match goal with
  | |- context [Qle_bool ?a ?b] =>
      destruct (Qle_bool_cases a b) as [[? ->] | [? ->]]; try lra
  | |- context [Qltb ?a ?b] =>
      destruct (Qltb_cases a b) as [[? ->] | [? ->]]; try lra
  end.

Lemma places_of_region (t : Q) :
  map (place_of t) timeline = places_in (region t).
Proof.
  unfold region, cuts. cbn [List.filter].
  repeat decide_cut; cbn [length];
    (cbv [timeline tl map place_of start duration];
     repeat decide_cut; reflexivity).
Qed.

Lemma region_le_12 (t : Q) : (region t <= 12)%nat.
Proof.
  unfold region.
  etransitivity; [apply List.filter_length_le | reflexivity].
Qed.

Lemma region_mono (t0 t1 : Q) : t0 <= t1 -> (region t0 <= region t1)%nat.
Proof.
  intros Hle. unfold region. induction cuts as [| c l IH]; [reflexivity |].
  cbn [List.filter].
  destruct (Qle_bool_cases c t0) as [[H0 ->] | [H0 ->]];
    destruct (Qle_bool_cases c t1) as [[H1 ->] | [H1 ->]];
    cbn [length]; try lia; lra.
Qed.

(** Rendering a later region after an earlier one, from the start of an
    iteration, is rendering the later region directly: what the earlier
    frame wrote is written again, or was final. *)
Lemma skip_regions (pl : player) (i j : nat) (pf0 pf1 : Q -> Q -> Q) :
  fresh pl -> (i <= j)%nat -> (j <= 12)%nat ->
  frame_with (places_in j) pf1 (frame_with (places_in i) pf0 pl) =
  frame_with (places_in j) pf1 pl.
Proof.
  intros [-> | ->] Hij Hj;
    (do 13 (destruct j as [| j];
            [do 13 (destruct i as [| i];
                    [first [exfalso; lia
                           | cbv -[ease interp]; reflexivity] |]);
             exfalso; lia |]);
     exfalso; lia).
Qed.

Lemma frame_skip (pl : player) (t0 t1 : Q) :
  fresh pl -> (region t0 <= region t1)%nat ->
  frame timeline t1 (frame timeline t0 pl) = frame timeline t1 pl.
Proof.
  intros Hpl Hreg. rewrite !frame_frame_with, !places_of_region.
  apply skip_regions; [exact Hpl | exact Hreg | apply region_le_12].
Qed.

Lemma region_total : region (totalDuration timeline) = 12%nat.
Proof. vm_compute. reflexivity. Qed.

Lemma repeat_fresh (pl : player) :
  fresh pl -> step timeline pl Repeat = repeated.
Proof. intros [-> | ->]; vm_compute; reflexivity. Qed.

Lemma repeat_reached (prev : option Q) (pl : player) :
  reached_by prev pl -> step timeline pl Repeat = repeated.
Proof.
  intros [S HS | S t HS]; [apply repeat_fresh, HS |].
  cbn [step]. rewrite frame_skip.
  - apply (repeat_fresh S HS).
  - exact HS.
  - rewrite region_total. apply region_le_12.
Qed.

Lemma frame_reached (prev : option Q) (pl : player) (t : Q) :
  reached_by prev pl -> forward prev [Frame t] = true ->
  reached_by (Some t) (frame timeline t pl).
Proof.
  intros [S HS | S t0 HS] Hfw.
  - constructor. exact HS.
  - cbn [forward] in Hfw. rewrite andb_true_r in Hfw.
    apply Qle_bool_iff in Hfw.
    rewrite frame_skip; [constructor; exact HS | exact HS |].
    apply region_mono, Hfw.
Qed.

Lemma forward_app (ks ks' : list tick) :
  forall prev : option Q,
    forward prev (ks ++ ks') = true ->
    forward prev ks = true /\
    exists prev' : option Q,
      forward prev' ks' = true /\
      forall pl, reached_by prev pl ->
        reached_by prev' (play timeline ks pl).
Proof.
  induction ks as [| k ks IH]; intros prev Hfw.
  - split; [reflexivity |]. exists prev. split; [exact Hfw |].
    intros pl Hpl. exact Hpl.
  - cbn [app forward] in Hfw. destruct k as [t |].
    + apply andb_true_iff in Hfw as [Hle Hrest].
      destruct (IH (Some t) Hrest) as [Hks (prev' & Hks' & Hreach)].
      split; [cbn [forward]; rewrite Hle, Hks; reflexivity |].
      exists prev'. split; [exact Hks' |].
      intros pl Hpl. cbn [play fold_left]. apply Hreach.
      apply (frame_reached prev); [exact Hpl |].
      cbn [forward]. rewrite Hle. reflexivity.
    + destruct (IH None Hfw) as [Hks (prev' & Hks' & Hreach)].
      split; [exact Hks |].
      exists prev'. split; [exact Hks' |].
      intros pl Hpl. cbn [play fold_left]. apply Hreach.
      rewrite (repeat_reached prev pl Hpl).
      constructor. right. reflexivity.
Qed.

(** The scene of a frame does not depend on the iteration. *)
Lemma pose_regions (i : nat) (pf : Q -> Q -> Q) :
  (i <= 12)%nat ->
  stage (frame_with (places_in i) pf repeated) =
  stage (frame_with (places_in i) pf loaded).
Proof.
  intros Hi.
  do 13 (destruct i as [| i]; [cbv -[ease interp]; reflexivity |]).
  exfalso; lia.
Qed.

Lemma pose_fresh (pl : player) (t : Q) :
  fresh pl -> stage (frame timeline t pl) = stage (frame timeline t loaded).
Proof.
  intros [-> | ->]; [reflexivity |].
  rewrite !frame_frame_with, !places_of_region.
  apply pose_regions, region_le_12.
Qed.

Lemma reached_pose (prev : option Q) (pl : player) :
  reached_by prev pl ->
  match prev with
  | Some t => stage pl = stage (frame timeline t loaded)
  | None => True
  end.
Proof. intros [S HS | S t HS]; [exact I | apply pose_fresh, HS]. Qed.

Lemma play_frame (ks : list tick) (t : Q) :
  forward None (ks ++ [Frame t]) = true ->
  stage (play timeline (ks ++ [Frame t]) loaded) =
  stage (frame timeline t loaded).
Proof.
  intros Hfw.
  destruct (forward_app ks [Frame t] None Hfw) as [_ (prev & Hlast & Hreach)].
  unfold play. rewrite fold_left_app. cbn [fold_left step].
  fold (play timeline ks loaded).
  assert (Hl : reached_by None loaded) by (constructor; left; reflexivity).
  exact (reached_pose _ _ (frame_reached prev _ t (Hreach loaded Hl) Hlast)).
Qed.

(** *** The scene graph *)

(** Three levels are enough for [traverse]: going deeper visits the same
    objects, from any object. *)
Lemma traverse_mesh (m : name) (k : nat) :
  is_mesh m = true -> traverse k m = [m].
Proof. intros Hm. destruct k, m; try discriminate Hm; reflexivity. Qed.

Lemma traverse_complete (n : name) (d : nat) :
  traverse (3 + d) n = traverse 3 n.
Proof.
  assert (Ht : forall k, traverse (S k) n_textGroup
                         = [n_textGroup; n_textPlane]).
  { intros k. cbn [traverse children flat_map app].
    rewrite traverse_mesh by reflexivity. reflexivity. }
  assert (Ha : forall k, traverse (S (S k)) n_addonGroup
                         = [n_addonGroup; n_textGroup; n_textPlane;
                            n_smallHeartPlane]).
  { intros k. cbn [traverse children flat_map app].
    rewrite traverse_mesh by reflexivity. reflexivity. }
  destruct n; cbn [Nat.add];
    try (apply Ha); try (apply Ht);
    try (rewrite !traverse_mesh by reflexivity; reflexivity);
    cbn [traverse children flat_map app];
    rewrite ?traverse_mesh by reflexivity; reflexivity.
Qed.

(** *** The reset phase *)

Lemma reset_animated (s : scene) :
  shaped s = true -> animated (reset s) = animated initial.
Proof.
  destruct s as [fg hg tg ag gg bh tp sh gp cs cam pt].
  destruct fg as [? ? ? [? |]], hg as [? ? ? [? |]], tg as [? ? ? [? |]],
           ag as [? ? ? [? |]], gg as [? ? ? [? |]];
    intros H; try discriminate H;
    destruct bh as [? ? ? [? |]], tp as [? ? ? [? |]], sh as [? ? ? [? |]],
             gp as [? ? ? [? |]];
    try discriminate H; reflexivity.
Qed.

Lemma end_of_iteration :
  stage (frame timeline (totalDuration timeline) loaded) = initial.
Proof. vm_compute. reflexivity. Qed.

Lemma repeated_initial : stage repeated = initial.
Proof. vm_compute. reflexivity. Qed.

Lemma forward_snoc_Repeat (ks : list tick) :
  forall prev : option Q,
    forward prev ks = true -> forward prev (ks ++ [Repeat]) = true.
Proof.
  induction ks as [| k ks IH]; intros prev H; [reflexivity |].
  cbn [app forward] in *. destruct k as [t |].
  - apply andb_true_iff in H as [H1 H2]. rewrite H1, (IH _ H2). reflexivity.
  - apply IH, H.
Qed.

Lemma play_repeat (ks : list tick) :
  forward None ks = true -> play timeline (ks ++ [Repeat]) loaded = repeated.
Proof.
  intros Hfw.
  assert (Hl : reached_by None loaded) by (constructor; left; reflexivity).
  destruct (forward_app ks [Repeat] None (forward_snoc_Repeat ks None Hfw))
    as [_ (prev & _ & Hreach)].
  unfold play. rewrite fold_left_app. cbn [fold_left].
  fold (play timeline ks loaded).
  apply (repeat_reached prev), Hreach, Hl.
Qed.

(** C2.  The callback of the reset phase puts every property that the
    phases write (the scale and opacity of heartGroup; the scale, rotation
    and opacity of textGroup; the position, rotation and opacity of
    smallHeartPlane; the position, scale, rotation and opacity of
    addonGroup; the scale, position and opacity of glowGroup; the rotation
    and scale of fullGroup; camState) at the value it has after the
    Phase 0 code, whatever it was before; these values are the literals of
    Phase 0 (the opacity of the text and of the small heart is 1, as the
    last [setOpacity(addonGroup, 1)] of Phase 0 leaves it).  So the scene
    at the end of an iteration of the timeline, and at the start of the
    next one, is the scene of Phase 0, whatever frames were rendered. *)
Theorem reset_restores_phase0 (s : scene) (ks : list tick) :
  shaped s = true ->
  forward None (ks ++ [Frame (totalDuration timeline)]) = true ->
  animated (reset s) = animated initial /\
  animated initial =
    ([V3 0.8 0.8 0.8;
      V3 0.5 0.5 0.5; V3 0 0 0;
      V3 2.5 2.5 0.02; V3 0 0 0;
      V3 0 0 0; V3 1 1 1; V3 0 0 0;
      V3 0.6 0.6 0.6; V3 0 0 (-0.05);
      V3 0 0 0; V3 1 1 1;
      V3 0 0.3 4],
     [[0]; [1]; [1]; [1; 1]; [0]]) /\
  stage (play timeline (ks ++ [Frame (totalDuration timeline)]) loaded)
    = initial /\
  stage (play timeline (ks ++ [Repeat]) loaded) = initial.
Proof.
  intros Hs Hfw.
  split; [apply reset_animated, Hs |].
  split; [reflexivity |].
  split.
  - rewrite <- end_of_iteration. apply play_frame, Hfw.
  - destruct (forward_app ks _ None Hfw) as [Hks _].
    rewrite (play_repeat ks Hks). apply repeated_initial.
Qed.

Lemma reset_restores_phase0_witness :
  animated (reset (animate built)) = animated initial /\
  animated initial =
    ([V3 0.8 0.8 0.8;
      V3 0.5 0.5 0.5; V3 0 0 0;
      V3 2.5 2.5 0.02; V3 0 0 0;
      V3 0 0 0; V3 1 1 1; V3 0 0 0;
      V3 0.6 0.6 0.6; V3 0 0 (-0.05);
      V3 0 0 0; V3 1 1 1;
      V3 0 0.3 4],
     [[0]; [1]; [1]; [1; 1]; [0]]) /\
  stage (play timeline
           ([Frame 0.5; Frame 3; Repeat; Frame 2; Frame 6.7] ++
            [Frame (totalDuration timeline)]) loaded)
    = initial /\
  stage (play timeline
           ([Frame 0.5; Frame 3; Repeat; Frame 2; Frame 6.7] ++ [Repeat])
           loaded) = initial.
Proof.
  apply (reset_restores_phase0 (animate built)
           [Frame 0.5; Frame 3; Repeat; Frame 2; Frame 6.7]);
    vm_compute; reflexivity.
Defined.

(** *** The camera *)

Lemma put_camera (n : name) (o : object3d) : keeps_camera (put n o).
Proof. intros s. destruct n; reflexivity. Qed.

Lemma position_set_camera (n : name) (a b c : Q) :
  keeps_camera (position_set n a b c).
Proof. intros s. apply put_camera. Qed.

Lemma scale_set_camera (n : name) (a b c : Q) :
  keeps_camera (scale_set n a b c).
Proof. intros s. apply put_camera. Qed.

Lemma rotation_set_camera (n : name) (a b c : Q) :
  keeps_camera (rotation_set n a b c).
Proof. intros s. apply put_camera. Qed.

Lemma set_camState_camera (v : vec3) : keeps_camera (set_camState v).
Proof. intros s. reflexivity. Qed.

Lemma setOpacity_camera (n : name) (v : Q) : keeps_camera (setOpacity n v).
Proof.
  intros s. unfold setOpacity. generalize (traverse 3 n). intros l.
  revert s. induction l as [| m l IH]; intros s; [reflexivity |].
  cbn [fold_left]. rewrite IH. unfold set_material_opacity.
  destruct (opacity (get m s)); [apply put_camera | reflexivity].
Qed.

Ltac camera_steps :=
  repeat first
    [ rewrite setOpacity_camera | rewrite position_set_camera
    | rewrite scale_set_camera | rewrite rotation_set_camera
    | rewrite set_camState_camera ].

Lemma reset_camera : keeps_camera reset.
Proof. intros s. unfold reset. cbv zeta. camera_steps. reflexivity. Qed.

Lemma hold_heart_camera : keeps_camera hold_heart.
Proof. intros s. unfold hold_heart. camera_steps. reflexivity. Qed.

Lemma face_front_camera : keeps_camera face_front.
Proof. intros s. unfold face_front. camera_steps. reflexivity. Qed.

Lemma timeline_spares_camera : Forall spares_camera timeline.
Proof.
  unfold timeline, tl.
  repeat (apply Forall_cons_2;
          [split; [discriminate |];
           cbn [onStart onUpdate onComplete callback_keeps_camera];
           repeat split;
           first [ apply setOpacity_camera | apply reset_camera
                 | apply hold_heart_camera | apply face_front_camera ] |]).
  apply Forall_nil_2.
Qed.

Lemma call_camera (f : option (scene -> scene)) (s : scene) :
  callback_keeps_camera f -> camera (call f s) = camera s.
Proof. destruct f as [g |]; intros H; [apply H | reflexivity]. Qed.

Lemma tween_write_camera (tw : tween) (pl : place) (fr : vec3) (r : Q)
    (s : scene) :
  tw_target tw <> CameraPosition ->
  camera (tween_write tw pl fr r s) = camera s.
Proof.
  intros H. unfold tween_write.
  destruct (tw_target tw); cbn [write];
    first [ apply put_camera | reflexivity | contradiction ].
Qed.

Lemma render_at_camera (pl : place) (p : Q) (tw : tween) (ts : tstate)
    (s : scene) :
  spares_camera tw -> camera (snd (render_at pl p tw ts s)) = camera s.
Proof.
  intros (Ht & Hs & Hu & Hc). unfold render_at.
  destruct pl, (reached ts); cbn [snd];
    rewrite ?call_camera, ?tween_write_camera, ?call_camera by assumption;
    reflexivity.
Qed.

Lemma render_all_camera (t : Q) (tws : list tween) :
  Forall spares_camera tws ->
  forall (tss : list tstate) (s : scene),
    camera (snd (render_all t tws tss s)) = camera s.
Proof.
  induction 1 as [| tw tws Htw _ IH]; intros tss s; [reflexivity |].
  destruct tss as [| ts tss]; [reflexivity |].
  cbn [render_all]. unfold render_tween.
  pose proof (render_at_camera (place_of t tw) (progress t tw) tw ts s Htw)
    as H1.
  destruct (render_at _ _ tw ts s) as [ts1 s1]. cbn [snd] in H1.
  pose proof (IH tss s1) as H2.
  destruct (render_all t tws tss s1) as [tss1 s2]. cbn [snd] in *.
  congruence.
Qed.

Lemma rewind_all_camera (tws : list tween) :
  Forall spares_camera tws ->
  forall (tss : list tstate) (s : scene),
    camera (rewind_all tws tss s) = camera s.
Proof.
  induction 1 as [| tw tws Htw _ IH]; intros tss s; [reflexivity |].
  destruct tss as [| ts tss]; [reflexivity |].
  cbn [rewind_all]. unfold rewind_tween.
  destruct (from ts); [| apply IH].
  rewrite tween_write_camera by apply Htw. apply IH.
Qed.

Lemma frame_camera (t : Q) (pl : player) :
  camera (stage (frame timeline t pl)) = camera (stage pl).
Proof.
  unfold frame.
  pose proof (render_all_camera t timeline timeline_spares_camera
                (states pl) (stage pl)) as H.
  destruct (render_all t timeline (states pl) (stage pl)) as [tss s].
  exact H.
Qed.

(** C9.  No tween of the timeline has the position of the camera as its
    target, and no tick of the timeline (a frame, or the end of an
    iteration) changes the position of the camera, whatever the state of
    the player: a phase that moves the camera writes [camState] only.
    [animate] copies [camState] into the position of the camera and then
    renders, so that after any events the frame that [animate] paints has
    the camera where [camState] is. *)
Theorem camera_follows_camState (pl : player) (k : tick) (es : list event) :
  Forall (fun tw => tw_target tw <> CameraPosition) timeline /\
  camera (stage (step timeline pl k)) = camera (stage pl) /\
  camera (stage (run timeline (es ++ [Animate]) pl))
    = camState (stage (run timeline es pl)) /\
  camState (stage (run timeline (es ++ [Animate]) pl))
    = camState (stage (run timeline es pl)) /\
  painted (stage (run timeline (es ++ [Animate]) pl))
    = camState (stage (run timeline es pl))
      :: painted (stage (run timeline es pl)).
Proof.
  split.
  { eapply Forall_impl; [exact timeline_spares_camera |].
    intros tw H. exact (proj1 H). }
  split.
  { destruct k as [t |]; cbn [step]; [apply frame_camera |].
    unfold rewind. cbn [stage].
    rewrite rewind_all_camera by exact timeline_spares_camera.
    apply frame_camera. }
  unfold run. rewrite fold_left_app. cbn [fold_left handle stage].
  fold (run timeline es pl).
  destruct (stage (run timeline es pl)) as
    [fg hg tg ag gg bh tp sh gp [cx cy cz] cam pt].
  repeat split.
Qed.

(** *** The hero spin *)

Lemma cube_unit (u : Q) : 0 <= u <= 1 -> 0 <= cube u <= 1.
Proof.
  intros [H0 H1]. unfold cube.
  assert (Hs : 0 <= u * u <= 1) by (split; nra).
  split; nra.
Qed.

Lemma power2_inOut_unit (p : Q) :
  0 <= p <= 1 -> 0 <= ease power2_inOut p <= 1.
Proof.
  intros [H0 H1]. cbn [ease].
  destruct (Qltb_cases p 0.5) as [[Hp ->] | [Hp ->]].
  - assert (Hu : 0 <= p * 2 <= 1) by (split; lra).
    pose proof (cube_unit _ Hu) as Hc.
    rewrite half. lra.
  - assert (Hu : 0 <= (1 - p) * 2 <= 1) by (split; lra).
    pose proof (cube_unit _ Hu) as Hc.
    rewrite half. lra.
Qed.

Lemma hero_spin_in_timeline : timeline !! 13%nat = Some hero_spin.
Proof. reflexivity. Qed.

(** Where the hero spin is for each region: inside in regions 4 to 7, that
    is from 1.8 to 4.3. *)
Lemma spin_regions (i : nat) (pf : Q -> Q -> Q) :
  (i <= 12)%nat ->
  y (rotation (fullGroup (stage (frame_with (places_in i) pf loaded)))) =
  if (4 <=? i)%nat && (i <=? 7)%nat
  then interp 0 (0 + Math_PI * 2) (ease power2_inOut (pf 1.8 2.5))
  else 0.
Proof.
  intros Hi.
  do 13 (destruct i as [| i]; [cbv -[ease interp]; reflexivity |]).
  exfalso; lia.
Qed.

Lemma region_spin (t : Q) :
  (4 <=? region t)%nat && (region t <=? 7)%nat = true <-> 1.8 <= t < 4.3.
Proof.
  unfold region, cuts. cbn [List.filter].
  repeat decide_cut; cbn [length Nat.leb andb];
    (split;
     [intros Hreg; first [discriminate Hreg | lra]
     | intros Hreg; first [reflexivity | lra]]).
Qed.

Lemma spin_angle (t : Q) :
  let r := y (rotation (fullGroup (stage (frame timeline t loaded)))) in
  0 <= r <= Math_PI * 2 /\ (4.3 <= t -> r = 0) /\ (t < 1.8 -> r = 0).
Proof.
  cbv zeta. rewrite frame_frame_with, places_of_region.
  rewrite spin_regions by apply region_le_12.
  destruct ((4 <=? region t)%nat && (region t <=? 7)%nat) eqn:E.
  - apply region_spin in E.
    assert (Hp : 0 <= (t - 1.8) / 2.5 <= 1).
    { assert (Hd : (t - 1.8) / 2.5 == (t - 1.8) * 0.4) by field.
      rewrite Hd. lra. }
    pose proof (power2_inOut_unit _ Hp) as He.
    assert (Hpi : 0 <= Math_PI) by (unfold Math_PI; lra).
    unfold interp. split; [split; nra |]. split; intros; lra.
  - split; [| split; reflexivity].
    unfold Math_PI. lra.
Qed.

(** C6.  The hero spin turns fullGroup from 0 to 2 pi about the y axis and
    its [onComplete] sets the angle to 0: rendering the end of the tween
    leaves the angle at 0, whatever it was.  In any forward playback, over
    any number of iterations, the angle at a frame is between 0 and 2 pi,
    and it is 0 at every frame from 4.3 s (the end of the spin) on, before
    1.8 s, and at the start of every iteration. *)
Theorem hero_spin_returns_to_zero (ks : list tick) (t : Q) :
  forward None (ks ++ [Frame t]) = true ->
  (start hero_spin + duration hero_spin == 4.3 /\
   to_y hero_spin = Some (0 + Math_PI * 2)) /\
  (forall (p : Q) (ts : tstate) (s : scene),
     reached ts <> Finished ->
     y (rotation (fullGroup (snd (render_at Past p hero_spin ts s)))) = 0) /\
  (let r := y (rotation (fullGroup
                 (stage (play timeline (ks ++ [Frame t]) loaded)))) in
   0 <= r <= Math_PI * 2 /\ (4.3 <= t -> r = 0) /\ (t < 1.8 -> r = 0)) /\
  y (rotation (fullGroup (stage (play timeline (ks ++ [Repeat]) loaded)))) = 0.
Proof.
  intros Hfw.
  split; [split; reflexivity |].
  split.
  { intros p ts s Hts. unfold render_at.
    destruct (reached ts); [| | contradiction];
      cbn [snd call onComplete hero_spin face_front];
      destruct s as [fg hg tg ag gg bh tp sh gp cs cam pt]; reflexivity. }
  split.
  { cbv zeta. rewrite (play_frame ks t Hfw). apply spin_angle. }
  destruct (forward_app ks _ None Hfw) as [Hks _].
  rewrite (play_repeat ks Hks). reflexivity.
Qed.

Lemma hero_spin_returns_to_zero_witness :
  (start hero_spin + duration hero_spin == 4.3 /\
   to_y hero_spin = Some (0 + Math_PI * 2)) /\
  (forall (p : Q) (ts : tstate) (s : scene),
     reached ts <> Finished ->
     y (rotation (fullGroup (snd (render_at Past p hero_spin ts s)))) = 0) /\
  (let r := y (rotation (fullGroup
                 (stage (play timeline
                           ([Frame 2; Frame 3; Repeat; Frame 1; Repeat;
                             Frame 2.5] ++ [Frame 4.5]) loaded)))) in
   0 <= r <= Math_PI * 2 /\ (4.3 <= 4.5 -> r = 0) /\ (4.5 < 1.8 -> r = 0)) /\
  y (rotation (fullGroup
       (stage (play timeline
                 ([Frame 2; Frame 3; Repeat; Frame 1; Repeat; Frame 2.5] ++
                  [Repeat]) loaded)))) = 0.
Proof.
  apply (hero_spin_returns_to_zero
           [Frame 2; Frame 3; Repeat; Frame 1; Repeat; Frame 2.5] 4.5).
  vm_compute. reflexivity.
Defined.

(** *** What stands aside of the timeline *)

(** Setting the scale of a billboard, the position of the camera, or the
    list of the frames painted. *)
Lemma scale_set_aside (m : name) (a b c : Q) :
  is_mesh m = true -> aside (scale_set m a b c).
Proof.
  intros Hm. unfold aside.
  split; [| split; [| split; [| split; [| split; [| split]]]]].
  - intros n x0 y0 z0 s.
    destruct m; try discriminate Hm; destruct n; reflexivity.
  - intros n x0 y0 z0 s.
    destruct m; try discriminate Hm; destruct n; reflexivity.
  - intros n x0 y0 z0 s Hn.
    destruct m; try discriminate Hm; destruct n; try discriminate Hn;
      reflexivity.
  - intros v s. destruct m; reflexivity.
  - intros v n s. unfold set_material_opacity.
    assert (Ho : opacity (get n (scale_set m a b c s)) = opacity (get n s))
      by (destruct m; try discriminate Hm; destruct n; reflexivity).
    rewrite Ho. destruct (opacity (get n s)); [| reflexivity].
    destruct m; try discriminate Hm; destruct n; reflexivity.
  - intros s. destruct m; reflexivity.
  - intros n s.
    do 3 (split; [destruct m; try discriminate Hm; destruct n; reflexivity |]).
    intros Hn.
    destruct m; try discriminate Hm; destruct n; try discriminate Hn;
      reflexivity.
Qed.

Lemma set_camera_aside (v : vec3) : aside (set_camera v).
Proof.
  unfold aside.
  split; [| split; [| split; [| split; [| split; [| split]]]]].
  - intros n x0 y0 z0 s. destruct n; reflexivity.
  - intros n x0 y0 z0 s. destruct n; reflexivity.
  - intros n x0 y0 z0 s _. destruct n; reflexivity.
  - intros w s. reflexivity.
  - intros w n s. unfold set_material_opacity.
    assert (Ho : opacity (get n (set_camera v s)) = opacity (get n s))
      by (destruct n; reflexivity).
    rewrite Ho. destruct (opacity (get n s)); [| reflexivity].
    destruct n; reflexivity.
  - intros s. reflexivity.
  - intros n s. do 3 (split; [destruct n; reflexivity |]).
    intros _. destruct n; reflexivity.
Qed.

Lemma set_painted_aside (l : list vec3) : aside (set_painted l).
Proof.
  unfold aside.
  split; [| split; [| split; [| split; [| split; [| split]]]]].
  - intros n x0 y0 z0 s. destruct n; reflexivity.
  - intros n x0 y0 z0 s. destruct n; reflexivity.
  - intros n x0 y0 z0 s _. destruct n; reflexivity.
  - intros w s. reflexivity.
  - intros w n s. unfold set_material_opacity.
    assert (Ho : opacity (get n (set_painted l s)) = opacity (get n s))
      by (destruct n; reflexivity).
    rewrite Ho. destruct (opacity (get n s)); [| reflexivity].
    destruct n; reflexivity.
  - intros s. reflexivity.
  - intros n s. do 3 (split; [destruct n; reflexivity |]).
    intros _. destruct n; reflexivity.
Qed.

Lemma id_aside : aside (fun s => s).
Proof.
  unfold aside.
  split; [| split; [| split; [| split; [| split; [| split]]]]];
    intros; try reflexivity.
  do 3 (split; [reflexivity |]). intros _. reflexivity.
Qed.

Lemma compose_aside (u v : scene -> scene) :
  aside u -> aside v -> aside (fun s => u (v s)).
Proof.
  intros (U1 & U2 & U3 & U4 & U5 & U6 & U7) (V1 & V2 & V3 & V4 & V5 & V6 & V7).
  unfold aside.
  split; [| split; [| split; [| split; [| split; [| split]]]]].
  - intros n x0 y0 z0 s. rewrite U1, V1. reflexivity.
  - intros n x0 y0 z0 s. rewrite U2, V2. reflexivity.
  - intros n x0 y0 z0 s Hn. rewrite U3, V3 by exact Hn. reflexivity.
  - intros w s. rewrite U4, V4. reflexivity.
  - intros w n s. rewrite U5, V5. reflexivity.
  - intros s. rewrite U6. apply V6.
  - intros n s.
    destruct (U7 n (v s)) as (A1 & A2 & A3 & A4).
    destruct (V7 n s) as (B1 & B2 & B3 & B4).
    rewrite A1, A2, A3.
    do 3 (split; [assumption |]).
    intros Hn. rewrite A4 by exact Hn. apply B4, Hn.
Qed.

Section Aside.

Variable u : scene -> scene.
Hypothesis Hu : aside u.

Lemma aside_position_set (n : name) (x0 y0 z0 : Q) (s : scene) :
  position_set n x0 y0 z0 (u s) = u (position_set n x0 y0 z0 s).
Proof. apply Hu. Qed.

Lemma aside_rotation_set (n : name) (x0 y0 z0 : Q) (s : scene) :
  rotation_set n x0 y0 z0 (u s) = u (rotation_set n x0 y0 z0 s).
Proof. apply Hu. Qed.

Lemma aside_scale_set (n : name) (x0 y0 z0 : Q) (s : scene) :
  is_mesh n = false ->
  scale_set n x0 y0 z0 (u s) = u (scale_set n x0 y0 z0 s).
Proof. apply Hu. Qed.

Lemma aside_set_camState (v : vec3) (s : scene) :
  set_camState v (u s) = u (set_camState v s).
Proof. apply Hu. Qed.

Lemma aside_camState (s : scene) : camState (u s) = camState s.
Proof. apply Hu. Qed.

Lemma aside_get (n : name) (s : scene) :
  position (get n (u s)) = position (get n s) /\
  rotation (get n (u s)) = rotation (get n s) /\
  opacity (get n (u s)) = opacity (get n s) /\
  (is_mesh n = false -> scale (get n (u s)) = scale (get n s)).
Proof. apply Hu. Qed.

Lemma aside_fullGroup_rotation (s : scene) :
  rotation (fullGroup (u s)) = rotation (fullGroup s).
Proof. apply (aside_get n_fullGroup s). Qed.

Lemma aside_setOpacity (n : name) (v : Q) (s : scene) :
  setOpacity n v (u s) = u (setOpacity n v s).
Proof.
  destruct Hu as (_ & _ & _ & _ & H5 & _).
  unfold setOpacity. generalize (traverse 3 n). intros l. revert s.
  induction l as [| k l IH]; intros s; [reflexivity |].
  cbn [fold_left]. rewrite H5. apply IH.
Qed.

Ltac aside_steps :=
  repeat first
    [ rewrite aside_setOpacity | rewrite aside_position_set
    | rewrite aside_rotation_set
    | rewrite aside_scale_set by reflexivity
    | rewrite aside_set_camState | rewrite aside_camState
    | rewrite aside_fullGroup_rotation ].

Lemma aside_reset : commutes u reset.
Proof. intros s. unfold reset. cbv zeta. aside_steps. reflexivity. Qed.

Lemma aside_hold_heart : commutes u hold_heart.
Proof. intros s. unfold hold_heart. aside_steps. reflexivity. Qed.

Lemma aside_face_front : commutes u face_front.
Proof. intros s. unfold face_front. cbv zeta. aside_steps. reflexivity. Qed.

(** No tween of the timeline reads or writes the scale of a billboard or
    the camera, and no callback does: every tween does the same before
    and after [u]. *)
Lemma aside_timeline : Forall (tween_commutes u) timeline.
Proof.
  unfold timeline, tl.
  repeat (apply Forall_cons_2;
          [split; [| split];
           [ intros s; cbn [tw_target read];
             first [ apply aside_camState | reflexivity
                   | apply (aside_get _ s); reflexivity ]
           | intros v s; cbn [tw_target write]; aside_steps; reflexivity
           | cbn [onStart onUpdate onComplete callback_commutes];
             repeat split;
             first [ intros s; apply aside_setOpacity | apply aside_reset
                   | apply aside_hold_heart | apply aside_face_front ] ] |]).
  apply Forall_nil_2.
Qed.

Lemma call_commutes (f : option (scene -> scene)) (s : scene) :
  callback_commutes u f -> call f (u s) = u (call f s).
Proof. destruct f as [g |]; intros H; [apply H | reflexivity]. Qed.

Lemma tween_write_commutes (tw : tween) (pl : place) (fr : vec3) (r : Q)
    (s : scene) :
  tween_commutes u tw ->
  tween_write tw pl fr r (u s) = u (tween_write tw pl fr r s).
Proof.
  intros (Hr & Hw & _). unfold tween_write. cbv zeta.
  rewrite Hr. apply Hw.
Qed.

Lemma render_at_commutes (pl : place) (p : Q) (tw : tween) (ts : tstate)
    (s : scene) :
  tween_commutes u tw ->
  render_at pl p tw ts (u s) =
  (fst (render_at pl p tw ts s), u (snd (render_at pl p tw ts s))).
Proof.
  intros Htw. pose proof Htw as (Hr & Hw & Hs & Hup & Hc).
  unfold render_at.
  destruct pl, (reached ts), (from ts); cbn [fst snd]; try reflexivity;
    rewrite ?Hr;
    rewrite ?(call_commutes _ _ Hs);
    rewrite ?(tween_write_commutes _ _ _ _ _ Htw);
    rewrite ?(call_commutes _ _ Hup);
    rewrite ?(call_commutes _ _ Hc);
    reflexivity.
Qed.

Lemma render_all_commutes (t : Q) (tws : list tween) :
  Forall (tween_commutes u) tws ->
  forall (tss : list tstate) (s : scene),
    render_all t tws tss (u s) =
    (fst (render_all t tws tss s), u (snd (render_all t tws tss s))).
Proof.
  induction 1 as [| tw tws Htw _ IH]; intros tss s; [reflexivity |].
  destruct tss as [| ts tss]; [reflexivity |].
  cbn [render_all]. unfold render_tween.
  rewrite (render_at_commutes _ _ _ _ _ Htw).
  destruct (render_at (place_of t tw) (progress t tw) tw ts s) as [ts1 s1].
  cbn [fst snd]. rewrite IH.
  destruct (render_all t tws tss s1) as [tss1 s2]. reflexivity.
Qed.

Lemma rewind_all_commutes (tws : list tween) :
  Forall (tween_commutes u) tws ->
  forall (tss : list tstate) (s : scene),
    rewind_all tws tss (u s) = u (rewind_all tws tss s).
Proof.
  induction 1 as [| tw tws Htw _ IH]; intros tss s; [reflexivity |].
  destruct tss as [| ts tss]; [reflexivity |].
  cbn [rewind_all]. unfold rewind_tween. rewrite IH.
  destruct (from ts); [| reflexivity].
  apply tween_write_commutes, Htw.
Qed.

Lemma frame_commutes (t : Q) (s : scene) (tss : list tstate) :
  frame timeline t (Player (u s) tss) =
  Player (u (stage (frame timeline t (Player s tss))))
         (states (frame timeline t (Player s tss))).
Proof.
  unfold frame. cbn [stage states].
  rewrite (render_all_commutes t timeline aside_timeline).
  destruct (render_all t timeline tss s) as [tss1 s1]. reflexivity.
Qed.

(** A tick of the timeline does the same before and after [u]. *)
Lemma step_commutes (k : tick) (s : scene) (tss : list tstate) :
  step timeline (Player (u s) tss) k =
  Player (u (stage (step timeline (Player s tss) k)))
         (states (step timeline (Player s tss) k)).
Proof.
  destruct k as [t |]; cbn [step]; [apply frame_commutes |].
  rewrite frame_commutes. unfold rewind. cbn [stage states].
  rewrite (rewind_all_commutes timeline aside_timeline). reflexivity.
Qed.

End Aside.

(** *** The page *)

Lemma mesh_of_mesh (b : billboard) : is_mesh (mesh_of b) = true.
Proof. destruct b; reflexivity. Qed.

Lemma billboard_eqb_eq (a b : billboard) : billboard_eqb a b = true -> a = b.
Proof. destruct a, b; intros H; try discriminate H; reflexivity. Qed.

Lemma lock_scale_aside (img : billboard -> Q * Q) (ready : billboard -> bool)
    (b : billboard) :
  aside (fun s => lock_scale img ready s b).
Proof.
  unfold lock_scale. destruct (ready b).
  - apply scale_set_aside, mesh_of_mesh.
  - apply id_aside.
Qed.

Lemma locked_aside (img : billboard -> Q * Q) (ready : billboard -> bool) :
  aside (locked img ready).
Proof.
  unfold locked. cbn [fold_left].
  apply (compose_aside (fun s => lock_scale img ready s b_glow)
           (fun s => lock_scale img ready
                       (lock_scale img ready
                          (lock_scale img ready s b_bigHeart) b_text)
                       b_smallHeart)); [apply lock_scale_aside |].
  apply (compose_aside (fun s => lock_scale img ready s b_smallHeart)
           (fun s => lock_scale img ready
                       (lock_scale img ready s b_bigHeart) b_text));
    [apply lock_scale_aside |].
  apply (compose_aside (fun s => lock_scale img ready s b_text)
           (fun s => lock_scale img ready s b_bigHeart));
    apply lock_scale_aside.
Qed.

(** The scene of the page: the scene [s] that the ticks give, with the
    scale of the billboards uploaded, the camera at [c] and the frames
    [l] painted. *)
Lemma dressed_aside (img : billboard -> Q * Q) (ready : billboard -> bool)
    (c : vec3) (l : list vec3) :
  aside (fun s => set_painted l (set_camera c (locked img ready s))).
Proof.
  apply (compose_aside (set_painted l)
           (fun s => set_camera c (locked img ready s)));
    [apply set_painted_aside |].
  apply (compose_aside (set_camera c) (locked img ready));
    [apply set_camera_aside | apply locked_aside].
Qed.

Lemma locked_ext (img : billboard -> Q * Q) (r r' : billboard -> bool)
    (s : scene) :
  (forall b, r b = r' b) -> locked img r s = locked img r' s.
Proof.
  intros H. unfold locked, lock_scale. cbn [fold_left]. rewrite !H.
  reflexivity.
Qed.

(** The first upload of the texture of [b] locks its scale; the scales of
    the billboards are set independently. *)
Lemma locked_upload (img : billboard -> Q * Q) (r : billboard -> bool)
    (b : billboard) (s : scene) :
  r b = false ->
  scale_set (mesh_of b) (baseWidth b)
    (baseWidth b * (or_else (snd (img b)) 800 / or_else (fst (img b)) 800))
    1 (locked img r s) =
  locked img (fun b' => r b' || billboard_eqb b b') s.
Proof.
  intros Hb. unfold locked, lock_scale. cbn [fold_left].
  destruct b; rewrite Hb; cbn [billboard_eqb orb]; rewrite ?orb_false_r;
    destruct (r b_bigHeart), (r b_text), (r b_smallHeart), (r b_glow);
    try discriminate Hb; destruct s; reflexivity.
Qed.

Lemma animate_dressed (c : vec3) (l : list vec3) (s : scene) :
  animate (set_painted l (set_camera c s)) =
  set_painted (V3 (x (camState s)) (y (camState s)) (z (camState s)) :: l)
    (set_camera (V3 (x (camState s)) (y (camState s)) (z (camState s))) s).
Proof. destruct s. reflexivity. Qed.

Lemma pose_dressed (c : vec3) (l : list vec3) (s : scene) :
  pose (set_painted l (set_camera c s)) = pose s.
Proof. destruct s. reflexivity. Qed.

Lemma ticks_app (hs hs' : list happening) :
  ticks (hs ++ hs') = ticks hs ++ ticks hs'.
Proof. unfold ticks. apply flat_map_app. Qed.

Lemma uploaded_app (b : billboard) (hs hs' : list happening) :
  uploaded b (hs ++ hs') = uploaded b hs || uploaded b hs'.
Proof. unfold uploaded. apply existsb_app. Qed.

(** After any history, the scene of the page is the scene that the ticks
    alone give, with the scale of the billboards uploaded in between, the
    camera where the last [animate] has put it, and the frames painted. *)
Lemma browse_dressed (img : billboard -> Q * Q) (hs : list happening) :
  let p := browse hs (opened img) in
  let q := play timeline (ticks hs) loaded in
  (forall b, textures p b =
             Texture (uploaded b hs) (fst (img b)) (snd (img b))) /\
  (exists (c : vec3) (l : list vec3),
     stage (player_of p) =
     set_painted l
       (set_camera c (locked img (fun b => uploaded b hs) (stage q)))) /\
  states (player_of p) = states q.
Proof.
  induction hs as [| h hs IH] using rev_ind.
  - cbn. split; [reflexivity |]. split; [| reflexivity].
    exists (V3 0 0.3 4), []. reflexivity.
  - cbv zeta in IH |- *. destruct IH as (Ht & (c & l & Hs) & Hq).
    unfold browse, play in *. rewrite fold_left_app, ticks_app, fold_left_app.
    cbn [fold_left].
    set (p := fold_left happen hs (opened img)) in *.
    set (q := fold_left (step timeline) (ticks hs) loaded) in *.
    assert (Hup : forall b',
               uploaded b' (hs ++ [h]) =
               uploaded b' hs ||
               match h with
               | Uploaded b => billboard_eqb b b'
               | _ => false
               end).
    { intros b'. rewrite uploaded_app. cbn. rewrite orb_false_r.
      reflexivity. }
    destruct h as [k | | b]; cbn [happen ticks flat_map fold_left app].
    + cbn [player_of textures].
      destruct (player_of p) as [sp tp]. cbn [stage states] in Hs, Hq.
      subst sp tp. destruct q as [sq tq]. cbn [stage states].
      rewrite (step_commutes _ (dressed_aside img _ c l)).
      cbn [stage states].
      split; [| split; [| reflexivity]].
      * intros b. rewrite Ht, Hup, orb_false_r. reflexivity.
      * exists c, l. do 2 f_equal. apply locked_ext. intros b.
        rewrite Hup, orb_false_r. reflexivity.
    + cbn [player_of textures stage states].
      split; [| split; [| exact Hq]].
      * intros b. rewrite Ht, Hup, orb_false_r. reflexivity.
      * rewrite Hs, animate_dressed. eexists _, _. do 2 f_equal.
        apply locked_ext. intros b. rewrite Hup, orb_false_r. reflexivity.
    + unfold tex_onUpdate. rewrite (Ht b).
      cbn [onceReady image_width image_height].
      destruct (uploaded b hs) eqn:E; cbn [player_of textures stage states].
      * split; [| split; [| exact Hq]].
        -- intros b'. unfold set_texture. rewrite Hup.
           destruct (billboard_eqb b b') eqn:Eb.
           ++ apply billboard_eqb_eq in Eb. subst b'. rewrite E. reflexivity.
           ++ rewrite Ht, orb_false_r. reflexivity.
        -- exists c, l. rewrite Hs. do 2 f_equal.
           apply locked_ext. intros b'. rewrite Hup.
           destruct (billboard_eqb b b') eqn:Eb;
             [| rewrite orb_false_r; reflexivity].
           apply billboard_eqb_eq in Eb. subst b'. rewrite E. reflexivity.
      * split; [| split; [| exact Hq]].
        -- intros b'. unfold set_texture. rewrite Hup.
           destruct (billboard_eqb b b') eqn:Eb.
           ++ apply billboard_eqb_eq in Eb. subst b'.
              rewrite orb_true_r. reflexivity.
           ++ rewrite Ht, orb_false_r. reflexivity.
        -- exists c, l. rewrite Hs.
           replace (scale_set (mesh_of b) (baseWidth b)
                      (baseWidth b *
                       (or_else (snd (img b)) 800 /
                        or_else (fst (img b)) 800)) 1
                      (set_painted l
                         (set_camera c
                            (locked img (fun b0 => uploaded b0 hs)
                               (stage q)))))
             with (set_painted l
                     (set_camera c
                        (scale_set (mesh_of b) (baseWidth b)
                           (baseWidth b *
                            (or_else (snd (img b)) 800 /
                             or_else (fst (img b)) 800)) 1
                           (locked img (fun b0 => uploaded b0 hs)
                              (stage q)))))
             by (destruct b; reflexivity).
           rewrite (locked_upload img _ b _ E). do 2 f_equal.
           apply locked_ext. intros b'. rewrite Hup. reflexivity.
Qed.

(** An upload writes the scale of billboards only. *)
Lemma locked_get (img : billboard -> Q * Q) (r : billboard -> bool)
    (n : name) (s : scene) :
  position (get n (locked img r s)) = position (get n s) /\
  rotation (get n (locked img r s)) = rotation (get n s) /\
  opacity (get n (locked img r s)) = opacity (get n s) /\
  (is_mesh n = false ->
   scale (get n (locked img r s)) = scale (get n s)).
Proof. apply (aside_get _ (locked_aside img r)). Qed.

(** *** The pose as a function of the time *)

(** C7.  Two evaluations at the same time can leave different scenes.
    Of two evaluations at [t = 3], the one made after an evaluation at 6
    and a seek back leaves the text at opacity 0, where the one made
    directly leaves it at 1: what the callback of PHASE 5 wrote is not
    undone, and the [onStart] of PHASE 2 is not called again, while the
    vectors that the tweens write are the same in both.  The opacity is 0
    as well when the second evaluation at 3 is rendered like a tick.  And
    the scale of a billboard depends on whether its texture has been
    uploaded: after a frame at the same time, in forward playback, it is 1
    before the upload and [baseWidth] after. *)
Lemma pose_depends_on_history :
  opacity (textPlane (stage (frame timeline 3 loaded))) = Some 1 /\
  opacity (textPlane
             (stage (seek_back timeline 3
                       (play timeline [Frame 3; Frame 6] loaded)))) = Some 0 /\
  fst (animated (stage (seek_back timeline 3
                          (play timeline [Frame 3; Frame 6] loaded))))
    = fst (animated (stage (frame timeline 3 loaded))) /\
  opacity (textPlane
             (stage (play timeline [Frame 3; Frame 6; Frame 3] loaded)))
    = Some 0 /\
  scale (textPlane
           (stage (player_of
                     (browse [Ticked (Frame 3)]
                             (opened (fun _ => (800, 800)))))))
    = V3 1 1 1 /\
  scale (textPlane
           (stage (player_of
                     (browse [Ticked (Frame 3); Uploaded b_text;
                              Ticked Repeat; Ticked (Frame 3)]
                             (opened (fun _ => (800, 800)))))))
    = V3 2 (2 * (800 / 800)) 1.
Proof.
  do 5 (split; [vm_compute; reflexivity |]). vm_compute. reflexivity.
Qed.

(** C7.  The page plays the timeline forward: within an iteration the
    playhead never goes back, and the iterations repeat.  In any such
    history of ticks, with [animate] run and the textures uploaded at any
    moments in between, the pose that a frame at time [t] leaves (the
    position, scale, rotation and opacity of every object, and camState)
    is the pose that rendering [t] directly from the loaded page gives,
    with the scale of the billboards whose texture has been uploaded: it
    depends on [t] and on which textures have come, not on the frames
    rendered before, on the number of iterations played, nor on when the
    uploads happened.  Every position, rotation and opacity, the scale of
    every group and camState are those of the direct frame, whatever has
    been uploaded.  So two frames at the same [t] leave the same pose,
    whatever was rendered before each of them, when the same textures have
    been uploaded; and the frame that [animate] paints next has the camera
    at the camState of the direct frame. *)
Theorem pose_depends_on_time_only (img : billboard -> Q * Q)
    (hs hs' : list happening) (t : Q) :
  forward None (ticks hs ++ [Frame t]) = true ->
  forward None (ticks hs' ++ [Frame t]) = true ->
  let s := stage (player_of (browse (hs ++ [Ticked (Frame t)]) (opened img))) in
  let s' :=
    stage (player_of (browse (hs' ++ [Ticked (Frame t)]) (opened img))) in
  let direct := stage (frame timeline t loaded) in
  pose s = pose (locked img (fun b => uploaded b hs) direct) /\
  (forall n : name,
     position (get n s) = position (get n direct) /\
     rotation (get n s) = rotation (get n direct) /\
     opacity (get n s) = opacity (get n direct) /\
     (is_mesh n = false -> scale (get n s) = scale (get n direct))) /\
  camState s = camState direct /\
  ((forall b : billboard, uploaded b hs = uploaded b hs') ->
   pose s = pose s') /\
  camera (stage (player_of
                   (browse (hs ++ [Ticked (Frame t); Rendered]) (opened img))))
    = camState direct.
Proof.
  intros H H'. cbv zeta.
  assert (Hone : forall gs,
             forward None (ticks gs ++ [Frame t]) = true ->
             exists (c : vec3) (l : list vec3),
               stage (player_of
                        (browse (gs ++ [Ticked (Frame t)]) (opened img)))
               = set_painted l
                   (set_camera c
                      (locked img (fun b => uploaded b gs)
                         (stage (frame timeline t loaded))))).
  { intros gs Hgs.
    destruct (browse_dressed img (gs ++ [Ticked (Frame t)]))
      as (_ & (c & l & Hs) & _).
    exists c, l. rewrite Hs, ticks_app. cbn [ticks flat_map app].
    rewrite (play_frame (ticks gs) t Hgs). do 2 f_equal.
    apply locked_ext. intros b. rewrite uploaded_app. cbn.
    rewrite orb_false_r. reflexivity. }
  destruct (Hone hs H) as (c & l & Hs).
  destruct (Hone hs' H') as (c' & l' & Hs').
  set (direct := stage (frame timeline t loaded)) in *.
  assert (Hcam : camState
                   (stage (player_of
                             (browse (hs ++ [Ticked (Frame t)]) (opened img))))
                 = camState direct).
  { rewrite Hs.
    rewrite (aside_camState _ (dressed_aside img _ c l)). reflexivity. }
  split; [rewrite Hs; apply pose_dressed |].
  split; [| split; [exact Hcam | split]].
  - intros n. rewrite Hs.
    apply (aside_get _ (dressed_aside img (fun b => uploaded b hs) c l)).
  - intros Hsame. rewrite Hs, Hs', !pose_dressed.
    f_equal. apply locked_ext, Hsame.
  - change (hs ++ [Ticked (Frame t); Rendered])
      with (hs ++ [Ticked (Frame t)] ++ [Rendered]).
    rewrite app_assoc. unfold browse at 1. rewrite fold_left_app.
    cbn [fold_left happen player_of stage].
    fold (browse (hs ++ [Ticked (Frame t)]) (opened img)).
    unfold animate. cbv zeta.
    set (s := stage (player_of
                       (browse (hs ++ [Ticked (Frame t)]) (opened img)))) in *.
    rewrite <- Hcam. destruct s as [? ? ? ? ? ? ? ? ? [? ? ?] ? ?].
    reflexivity.
Qed.

(** A history with an upload before the frames and one with uploads in
    between, over several iterations; the image of the glow has no size
    yet. *)
Lemma pose_depends_on_time_only_witness :
  let img := fun b : billboard =>
               match b with b_glow => (0, 0) | _ => (800, 600) end in
  let hs := [Uploaded b_text; Ticked (Frame 0.2); Rendered; Uploaded b_glow;
             Ticked (Frame 1); Rendered; Ticked (Frame 2.9)] in
  let hs' := [Ticked (Frame 3); Uploaded b_glow; Ticked (Frame 5.5);
              Ticked Repeat; Uploaded b_glow; Rendered; Ticked Repeat;
              Ticked (Frame 1.5); Uploaded b_text] in
  let s := stage (player_of (browse (hs ++ [Ticked (Frame 3)]) (opened img))) in
  let s' :=
    stage (player_of (browse (hs' ++ [Ticked (Frame 3)]) (opened img))) in
  let direct := stage (frame timeline 3 loaded) in
  pose s = pose (locked img (fun b => uploaded b hs) direct) /\
  (forall n : name,
     position (get n s) = position (get n direct) /\
     rotation (get n s) = rotation (get n direct) /\
     opacity (get n s) = opacity (get n direct) /\
     (is_mesh n = false -> scale (get n s) = scale (get n direct))) /\
  camState s = camState direct /\
  pose s = pose s' /\
  camera (stage (player_of
                   (browse (hs ++ [Ticked (Frame 3); Rendered]) (opened img))))
    = camState direct.
Proof.
  intros img hs hs' s s' direct.
  destruct (pose_depends_on_time_only img hs hs' 3) as (A & B & C & D & E);
    [vm_compute; reflexivity | vm_compute; reflexivity |].
  split; [exact A |]. split; [exact B |]. split; [exact C |].
  split; [| exact E].
  apply D. intros []; reflexivity.
Defined.

(** *** What the timeline keeps *)

Section Invariant.

Variable P : scene -> Prop.

Lemma call_preserves (f : option (scene -> scene)) (s : scene) :
  callback_preserves P f -> P s -> P (call f s).
Proof. destruct f as [g |]; intros H Hs; [apply H, Hs | exact Hs]. Qed.

Lemma render_at_preserves (pl : place) (p : Q) (tw : tween) (ts : tstate)
    (s : scene) :
  tween_preserves P tw -> P s -> P (snd (render_at pl p tw ts s)).
Proof.
  intros (Hw & Hs & Hu & Hc) H. unfold render_at.
  destruct pl, (reached ts); cbn [snd]; try exact H;
    repeat first [ apply call_preserves; [assumption |] | apply Hw ];
    exact H.
Qed.

Lemma render_all_preserves (t : Q) (tws : list tween) :
  Forall (tween_preserves P) tws ->
  forall (tss : list tstate) (s : scene),
    P s -> P (snd (render_all t tws tss s)).
Proof.
  induction 1 as [| tw tws Htw _ IH]; intros tss s Hs; [destruct tss; exact Hs |].
  destruct tss as [| ts tss]; [exact Hs |].
  cbn [render_all]. unfold render_tween.
  pose proof (render_at_preserves (place_of t tw) (progress t tw) tw ts s
                Htw Hs) as H1.
  destruct (render_at _ _ tw ts s) as [ts1 s1]. cbn [snd] in H1.
  pose proof (IH tss s1 H1) as H2.
  destruct (render_all t tws tss s1) as [tss1 s2]. exact H2.
Qed.

Lemma rewind_all_preserves (tws : list tween) :
  Forall (tween_preserves P) tws ->
  forall (tss : list tstate) (s : scene),
    P s -> P (rewind_all tws tss s).
Proof.
  induction 1 as [| tw tws Htw _ IH]; intros tss s Hs; [destruct tss; exact Hs |].
  destruct tss as [| ts tss]; [exact Hs |].
  cbn [rewind_all]. unfold rewind_tween.
  destruct (from ts); [| apply IH, Hs].
  apply (proj1 Htw). apply IH, Hs.
Qed.

Lemma step_preserves (tws : list tween) (pl : player) (k : tick) :
  Forall (tween_preserves P) tws ->
  P (stage pl) -> P (stage (step tws pl k)).
Proof.
  intros Htws Hs.
  assert (Hf : forall t, P (stage (frame tws t pl))).
  { intros t. unfold frame.
    pose proof (render_all_preserves t tws Htws (states pl) (stage pl) Hs) as H.
    destruct (render_all t tws (states pl) (stage pl)) as [tss s]. exact H. }
  destruct k as [t |]; cbn [step]; [apply Hf |].
  unfold rewind. cbn [stage]. apply rewind_all_preserves; [exact Htws |].
  apply Hf.
Qed.

Lemma play_preserves (tws : list tween) (ks : list tick) :
  Forall (tween_preserves P) tws ->
  forall pl : player, P (stage pl) -> P (stage (play tws ks pl)).
Proof.
  intros Htws. induction ks as [| k ks IH]; intros pl Hs; [exact Hs |].
  cbn [play fold_left]. apply IH. apply step_preserves; assumption.
Qed.

End Invariant.

(** *** [setOpacity] *)

Lemma name_eqb_eq (a b : name) : name_eqb a b = true <-> a = b.
Proof. destruct a, b; split; intros H; try reflexivity; discriminate H. Qed.

Lemma get_put (n m : name) (o : object3d) (s : scene) :
  get m (put n o s) = if name_eqb n m then o else get m s.
Proof. destruct n, m; reflexivity. Qed.

Lemma put_rest (n : name) (o : object3d) (s : scene) :
  camState (put n o s) = camState s /\ camera (put n o s) = camera s /\
  painted (put n o s) = painted s.
Proof. destruct n; repeat split. Qed.

Lemma with_opacity_twice (v : Q) (o : object3d) :
  with_opacity v (with_opacity v o) = with_opacity v o.
Proof. destruct o as [? ? ? [? |]]; reflexivity. Qed.

Lemma set_material_opacity_get (v : Q) (s : scene) (a m : name) :
  get m (set_material_opacity v s a) =
  if name_eqb a m then with_opacity v (get m s) else get m s.
Proof.
  unfold set_material_opacity, with_opacity.
  destruct (name_eqb a m) eqn:E.
  - apply name_eqb_eq in E. subst m.
    destruct (opacity (get a s)); [| reflexivity].
    rewrite get_put.
    replace (name_eqb a a) with true by (destruct a; reflexivity).
    reflexivity.
  - destruct (opacity (get a s)); [| reflexivity].
    rewrite get_put, E. reflexivity.
Qed.

Lemma set_material_opacity_rest (v : Q) (s : scene) (a : name) :
  camState (set_material_opacity v s a) = camState s /\
  camera (set_material_opacity v s a) = camera s /\
  painted (set_material_opacity v s a) = painted s.
Proof.
  unfold set_material_opacity.
  destruct (opacity (get a s)); [apply put_rest | repeat split].
Qed.

Lemma fold_opacity_get (v : Q) (l : list name) :
  forall (s : scene) (m : name),
    get m (fold_left (set_material_opacity v) l s) =
    if existsb (name_eqb m) l then with_opacity v (get m s) else get m s.
Proof.
  induction l as [| a l IH]; intros s m; [reflexivity |].
  cbn [fold_left existsb]. rewrite IH, set_material_opacity_get.
  assert (Hsym : name_eqb m a = name_eqb a m) by (destruct m, a; reflexivity).
  rewrite Hsym.
  destruct (name_eqb a m); cbn [orb].
  - rewrite with_opacity_twice. destruct (existsb (name_eqb m) l); reflexivity.
  - reflexivity.
Qed.

Lemma fold_opacity_rest (v : Q) (l : list name) :
  forall s : scene,
    camState (fold_left (set_material_opacity v) l s) = camState s /\
    camera (fold_left (set_material_opacity v) l s) = camera s /\
    painted (fold_left (set_material_opacity v) l s) = painted s.
Proof.
  induction l as [| a l IH]; intros s; [repeat split |].
  cbn [fold_left].
  destruct (IH (set_material_opacity v s a)) as (H1 & H2 & H3).
  destruct (set_material_opacity_rest v s a) as (G1 & G2 & G3).
  rewrite H1, H2, H3. repeat split; assumption.
Qed.

Lemma setOpacity_get (n m : name) (v : Q) (s : scene) :
  get m (setOpacity n v s) =
  if under n m then with_opacity v (get m s) else get m s.
Proof. apply fold_opacity_get. Qed.

(** X10.  [setOpacity(obj, value)] writes the opacity of the material of
    every mesh at or below [obj] in the scene graph, and nothing else: no
    position, scale or rotation, no object without a material, no mesh
    elsewhere, nor camState or the camera.  Called on a group it
    replaces whatever opacity its meshes were given before: all the
    opacities of the group are [value] afterwards. *)
Theorem setOpacity_writes_materials_below (n m : name) (v : Q) (s : scene) :
  position (get m (setOpacity n v s)) = position (get m s) /\
  scale (get m (setOpacity n v s)) = scale (get m s) /\
  rotation (get m (setOpacity n v s)) = rotation (get m s) /\
  opacity (get m (setOpacity n v s)) =
    (if under n m
     then match opacity (get m s) with Some _ => Some v | None => None end
     else opacity (get m s)) /\
  camState (setOpacity n v s) = camState s /\
  camera (setOpacity n v s) = camera s /\
  opacities n (setOpacity n v s) = map (fun _ => v) (opacities n s).
Proof.
  rewrite setOpacity_get.
  destruct (fold_opacity_rest v (traverse 3 n) s) as (H1 & H2 & _).
  repeat split.
  1-4: unfold with_opacity;
       destruct (under n m), (opacity (get m s)) eqn:E;
       try reflexivity; rewrite ?E; reflexivity.
  - exact H1.
  - exact H2.
  - unfold opacities. generalize (eq_refl (traverse 3 n)).
    generalize (traverse 3 n) at 1 3 4. intros l Hl.
    assert (Hin : forall a, In a l -> under n a = true).
    { intros a Ha. unfold under. rewrite <- Hl. apply existsb_exists.
      exists a. split; [exact Ha | destruct a; reflexivity]. }
    clear Hl. induction l as [| a l IH]; [reflexivity |].
    cbn [omap list_omap]. 
    rewrite setOpacity_get, (Hin a) by (left; reflexivity).
    unfold with_opacity at 1.
    destruct (opacity (get a s)) eqn:E; cbn [opacity];
      rewrite ?E; cbn [map]; rewrite IH by (intros b Hb; apply Hin; right; exact Hb);
      reflexivity.
Qed.

(** *** The billboards *)

Lemma or_else_nonzero (a : Q) : ~ or_else a 800 == 0.
Proof.
  unfold or_else. destruct (Qeq_bool a 0) eqn:E.
  - intros H. discriminate H.
  - apply Qeq_bool_neq in E. exact E.
Qed.

(** X11.  The first [onUpdate] of the texture of a billboard sets the
    scale of its mesh to [baseWidth] by [baseWidth * height / width], with
    800 for a width or height of 0, so that it never divides by 0, and
    [baseWidth] by [baseWidth] for a square image; it moves and turns
    nothing and leaves the other objects alone.  It sets [onceReady], and
    any later [onUpdate], whatever the image has become, changes
    nothing. *)
Theorem billboard_scale_is_locked (b : Q) (n : name) (tex : texture)
    (s : scene) :
  onceReady tex = false ->
  onceReady (fst (tex_onUpdate b n tex s)) = true /\
  ~ or_else (image_width tex) 800 == 0 /\
  scale (get n (snd (tex_onUpdate b n tex s))) =
    V3 b (b * (or_else (image_height tex) 800 / or_else (image_width tex) 800))
       1 /\
  (image_width tex == image_height tex ->
   y (scale (get n (snd (tex_onUpdate b n tex s)))) == b) /\
  position (get n (snd (tex_onUpdate b n tex s))) = position (get n s) /\
  rotation (get n (snd (tex_onUpdate b n tex s))) = rotation (get n s) /\
  opacity (get n (snd (tex_onUpdate b n tex s))) = opacity (get n s) /\
  (forall m : name, m <> n -> get m (snd (tex_onUpdate b n tex s)) = get m s) /\
  (forall (w2 h2 : Q) (s2 : scene),
     tex_onUpdate b n
       (Texture (onceReady (fst (tex_onUpdate b n tex s))) w2 h2) s2
     = (Texture true w2 h2, s2)).
Proof.
  intros Hready. unfold tex_onUpdate at 1 2 3 4 5 6 7 8. rewrite Hready.
  cbn [fst snd onceReady]. unfold scale_set. rewrite !get_put.
  replace (name_eqb n n) with true by (destruct n; reflexivity).
  cbn [position scale rotation opacity y].
  split; [reflexivity |]. split; [apply or_else_nonzero |].
  split; [reflexivity |]. split.
  { intros Hsq. unfold or_else.
    destruct (Qeq_bool (image_width tex) 0) eqn:Ew.
    - apply Qeq_bool_eq in Ew.
      assert (Eh : Qeq_bool (image_height tex) 0 = true).
      { apply Qeq_bool_iff. rewrite <- Hsq. exact Ew. }
      rewrite Eh. field.
    - apply Qeq_bool_neq in Ew.
      assert (Eh : Qeq_bool (image_height tex) 0 = false).
      { apply not_true_iff_false. intros H. apply Qeq_bool_iff in H.
        apply Ew. rewrite Hsq. exact H. }
      rewrite Eh, <- Hsq. field. exact Ew. }
  do 3 (split; [reflexivity |]).
  split.
  { intros m Hm. rewrite get_put.
    destruct (name_eqb n m) eqn:E; [| reflexivity].
    apply name_eqb_eq in E. congruence. }
  intros w2 h2 s2. unfold tex_onUpdate. rewrite Hready. reflexivity.
Qed.

Lemma billboard_scale_is_locked_witness :
  let tex := Texture false 400 0 in
  onceReady (fst (tex_onUpdate 2.5 n_glowPlane tex initial)) = true /\
  ~ or_else (image_width tex) 800 == 0 /\
  scale (get n_glowPlane (snd (tex_onUpdate 2.5 n_glowPlane tex initial))) =
    V3 2.5
       (2.5 * (or_else (image_height tex) 800 / or_else (image_width tex) 800))
       1 /\
  (image_width tex == image_height tex ->
   y (scale (get n_glowPlane (snd (tex_onUpdate 2.5 n_glowPlane tex initial))))
   == 2.5) /\
  position (get n_glowPlane (snd (tex_onUpdate 2.5 n_glowPlane tex initial)))
    = position (get n_glowPlane initial) /\
  rotation (get n_glowPlane (snd (tex_onUpdate 2.5 n_glowPlane tex initial)))
    = rotation (get n_glowPlane initial) /\
  opacity (get n_glowPlane (snd (tex_onUpdate 2.5 n_glowPlane tex initial)))
    = opacity (get n_glowPlane initial) /\
  (forall m : name,
     m <> n_glowPlane ->
     get m (snd (tex_onUpdate 2.5 n_glowPlane tex initial)) = get m initial) /\
  (forall (w2 h2 : Q) (s2 : scene),
     tex_onUpdate 2.5 n_glowPlane
       (Texture (onceReady (fst (tex_onUpdate 2.5 n_glowPlane tex initial)))
                w2 h2) s2
     = (Texture true w2 h2, s2)).
Proof.
  apply (billboard_scale_is_locked 2.5 n_glowPlane (Texture false 400 0)
           initial).
  reflexivity.
Defined.

(** *** The vectors no phase writes *)

Lemma setOpacity_fixed (n : name) (v : Q) (s : scene) :
  fixed (setOpacity n v s) = fixed s.
Proof.
  assert (H : forall m, position (get m (setOpacity n v s)) = position (get m s)
                     /\ scale (get m (setOpacity n v s)) = scale (get m s)
                     /\ rotation (get m (setOpacity n v s)) = rotation (get m s)).
  { intros m. rewrite setOpacity_get. unfold with_opacity.
    destruct (under n m), (opacity (get m s)); repeat split. }
  pose proof (H n_bigHeartPlane) as (A1 & A2 & A3).
  pose proof (H n_textPlane) as (B1 & B2 & B3).
  pose proof (H n_glowPlane) as (C1 & C2 & C3).
  pose proof (H n_smallHeartPlane) as (_ & D2 & _).
  pose proof (H n_heartGroup) as (E1 & _ & E3).
  pose proof (H n_textGroup) as (F1 & _ & _).
  pose proof (H n_fullGroup) as (G1 & _ & _).
  pose proof (H n_glowGroup) as (_ & _ & I3).
  cbn [get] in *. unfold fixed. congruence.
Qed.

Lemma position_set_fixed (n : name) (a b c : Q) (s : scene) :
  n = n_smallHeartPlane \/ n = n_addonGroup \/ n = n_glowGroup ->
  fixed (position_set n a b c s) = fixed s.
Proof. intros [-> | [-> | ->]]; reflexivity. Qed.

Lemma scale_set_fixed (n : name) (a b c : Q) (s : scene) :
  is_mesh n = false -> fixed (scale_set n a b c s) = fixed s.
Proof. intros Hn. destruct n; try discriminate Hn; reflexivity. Qed.

Lemma rotation_set_fixed (n : name) (a b c : Q) (s : scene) :
  n = n_textGroup \/ n = n_smallHeartPlane \/ n = n_addonGroup \/
  n = n_fullGroup ->
  fixed (rotation_set n a b c s) = fixed s.
Proof. intros [-> | [-> | [-> | ->]]]; reflexivity. Qed.

Lemma set_camState_fixed (v : vec3) (s : scene) :
  fixed (set_camState v s) = fixed s.
Proof. reflexivity. Qed.

Ltac fixed_steps :=
  repeat first
    [ rewrite setOpacity_fixed | rewrite set_camState_fixed
    | rewrite position_set_fixed by auto
    | rewrite scale_set_fixed by reflexivity
    | rewrite rotation_set_fixed by auto 6 ].

Lemma reset_fixed (s : scene) : fixed (reset s) = fixed s.
Proof. unfold reset. cbv zeta. fixed_steps. reflexivity. Qed.

Lemma hold_heart_fixed (s : scene) : fixed (hold_heart s) = fixed s.
Proof. unfold hold_heart. fixed_steps. reflexivity. Qed.

Lemma face_front_fixed (s : scene) : fixed (face_front s) = fixed s.
Proof. reflexivity. Qed.

Lemma write_fixed (g : target) (v : vec3) (s : scene) :
  match g with
  | Position n =>
      n = n_smallHeartPlane \/ n = n_addonGroup \/ n = n_glowGroup
  | Scale n => is_mesh n = false
  | Rotation n =>
      n = n_textGroup \/ n = n_smallHeartPlane \/ n = n_addonGroup \/
      n = n_fullGroup
  | _ => True
  end ->
  fixed (write g v s) = fixed s.
Proof.
  destruct g; cbn [write]; intros H;
    first [ apply position_set_fixed, H | apply scale_set_fixed, H
          | apply rotation_set_fixed, H | reflexivity ].
Qed.

Lemma timeline_keeps_fixed (a : list vec3) :
  Forall (tween_preserves (fun s => fixed s = a)) timeline.
Proof.
  unfold timeline, tl.
  repeat (apply Forall_cons_2;
          [split;
           [intros pl fr r s Hs; rewrite <- Hs; unfold tween_write;
            apply write_fixed; cbn [tw_target]; auto 6 |];
           cbn [onStart onUpdate onComplete callback_preserves];
           repeat split; intros s Hs; rewrite <- Hs;
           lazymatch goal with
           | |- fixed (setOpacity _ _ _) = _ => apply setOpacity_fixed
           | |- fixed (reset _) = _ => apply reset_fixed
           | |- fixed (hold_heart _) = _ => apply hold_heart_fixed
           | |- fixed (face_front _) = _ => apply face_front_fixed
           end |]).
  apply Forall_nil_2.
Qed.

(** X12.  Whatever the state of the player and whatever ticks follow, in
    any order, the timeline never writes the position, scale or rotation
    of the three full billboards, the scale of the small heart, the
    position or rotation of heartGroup, the position of textGroup or
    fullGroup, or the rotation of glowGroup.  So the scale that the first
    [onUpdate] of a texture gives a billboard is the scale it has after
    any playback. *)
Theorem timeline_leaves_billboards (pl : player) (ks : list tick)
    (b : Q) (n : name) (tex : texture) :
  is_mesh n = true -> onceReady tex = false ->
  fixed (stage (play timeline ks pl)) = fixed (stage pl) /\
  scale (get n (stage (play timeline ks
                         (Player (snd (tex_onUpdate b n tex (stage pl)))
                                 (states pl))))) =
  V3 b (b * (or_else (image_height tex) 800 / or_else (image_width tex) 800)) 1.
Proof.
  intros Hn Hready. split.
  { apply (play_preserves (fun s => fixed s = fixed (stage pl)));
      [apply timeline_keeps_fixed | reflexivity]. }
  set (s1 := snd (tex_onUpdate b n tex (stage pl))).
  assert (H1 : scale (get n s1)
               = V3 b (b * (or_else (image_height tex) 800
                            / or_else (image_width tex) 800)) 1).
  { unfold s1, tex_onUpdate. rewrite Hready. cbn [snd]. unfold scale_set.
    rewrite get_put.
    replace (name_eqb n n) with true by (destruct n; reflexivity).
    reflexivity. }
  rewrite <- H1.
  pose proof (play_preserves (fun s => fixed s = fixed s1) timeline ks
                (timeline_keeps_fixed _) (Player s1 (states pl)) eq_refl) as H.
  cbv beta in H. unfold fixed in H.
  destruct n; try discriminate Hn; cbn [get]; congruence.
Qed.

Lemma timeline_leaves_billboards_witness :
  fixed (stage (play timeline [Frame 3; Frame 1; Repeat; Frame 6] loaded))
    = fixed (stage loaded) /\
  scale (get n_smallHeartPlane
           (stage (play timeline [Frame 3; Frame 1; Repeat; Frame 6]
                     (Player (snd (tex_onUpdate 2 n_smallHeartPlane
                                     (Texture false 800 400) (stage loaded)))
                             (states loaded))))) =
  V3 2 (2 * (or_else (image_height (Texture false 800 400)) 800
             / or_else (image_width (Texture false 800 400)) 800)) 1.
Proof.
  apply (timeline_leaves_billboards loaded [Frame 3; Frame 1; Repeat; Frame 6]
           2 n_smallHeartPlane (Texture false 800 400)); reflexivity.
Defined.

(** *** The opacities *)

Lemma stepped_same_opacities (s s' : scene) :
  (forall m, opacity (get m s') = opacity (get m s)) ->
  stepped s -> stepped s'.
Proof.
  intros H Hs. unfold stepped in *.
  eapply Forall_impl; [exact Hs |].
  intros m Hm. cbv beta in *. rewrite !H. exact Hm.
Qed.

Lemma put_same_opacity (n m : name) (p sc r : vec3) (s : scene) :
  opacity (get m (put n (Object3D p sc r (opacity (get n s))) s))
  = opacity (get m s).
Proof.
  rewrite get_put. destruct (name_eqb n m) eqn:E; [| reflexivity].
  apply name_eqb_eq in E. subst m. reflexivity.
Qed.

Lemma write_same_opacity (g : target) (v : vec3) (s : scene) (m : name) :
  opacity (get m (write g v s)) = opacity (get m s).
Proof.
  destruct g; cbn [write];
    first [ apply put_same_opacity | destruct m; reflexivity ].
Qed.

Lemma stepped_position_set (n : name) (a b c : Q) :
  preserves stepped (position_set n a b c).
Proof.
  intros s. apply stepped_same_opacities. intros m. apply put_same_opacity.
Qed.

Lemma stepped_scale_set (n : name) (a b c : Q) :
  preserves stepped (scale_set n a b c).
Proof.
  intros s. apply stepped_same_opacities. intros m. apply put_same_opacity.
Qed.

Lemma stepped_rotation_set (n : name) (a b c : Q) :
  preserves stepped (rotation_set n a b c).
Proof.
  intros s. apply stepped_same_opacities. intros m. apply put_same_opacity.
Qed.

Lemma stepped_set_camState (v : vec3) : preserves stepped (set_camState v).
Proof.
  intros s. apply stepped_same_opacities. intros m. destruct m; reflexivity.
Qed.

Lemma stepped_setOpacity (n : name) (v : Q) :
  v = 0 \/ v = 0.6 \/ v = 1 -> preserves stepped (setOpacity n v).
Proof.
  intros Hv s Hs. unfold stepped in *.
  rewrite Forall_forall in Hs. apply Forall_forall. intros m Hm.
  specialize (Hs m Hm). rewrite setOpacity_get. unfold with_opacity.
  destruct (under n m); [| exact Hs].
  destruct (is_mesh m).
  - destruct (opacity (get m s)) eqn:E; [| rewrite E; exact Hs].
    cbn [opacity]. destruct Hv as [-> | [-> | ->]]; auto.
  - rewrite Hs. exact Hs.
Qed.

Ltac stepped_steps :=
  repeat lazymatch goal with
         | |- stepped (setOpacity _ _ _) =>
             apply stepped_setOpacity; [auto |]
         | |- stepped (position_set _ _ _ _ _) => apply stepped_position_set
         | |- stepped (scale_set _ _ _ _ _) => apply stepped_scale_set
         | |- stepped (rotation_set _ _ _ _ _) => apply stepped_rotation_set
         | |- stepped (set_camState _ _) => apply stepped_set_camState
         end.

Lemma stepped_reset : preserves stepped reset.
Proof. intros s Hs. unfold reset. cbv zeta. stepped_steps. exact Hs. Qed.

Lemma stepped_hold_heart : preserves stepped hold_heart.
Proof. intros s Hs. unfold hold_heart. stepped_steps. exact Hs. Qed.

Lemma stepped_face_front : preserves stepped face_front.
Proof. intros s Hs. unfold face_front. stepped_steps. exact Hs. Qed.

Lemma timeline_keeps_stepped : Forall (tween_preserves stepped) timeline.
Proof.
  unfold timeline, tl.
  repeat (apply Forall_cons_2;
          [split;
           [intros pl fr r s; apply stepped_same_opacities;
            intros m; apply write_same_opacity |];
           cbn [onStart onUpdate onComplete callback_preserves];
           repeat split;
           lazymatch goal with
           | |- preserves _ (setOpacity _ _) => apply stepped_setOpacity; auto
           | |- preserves _ reset => apply stepped_reset
           | |- preserves _ hold_heart => apply stepped_hold_heart
           | |- preserves _ face_front => apply stepped_face_front
           end |]).
  apply Forall_nil_2.
Qed.

Lemma stepped_initial : stepped initial.
Proof.
  unfold stepped, all_names.
  repeat (apply Forall_cons_2; [cbn; auto |]). apply Forall_nil_2.
Qed.

(** X13.  The timeline never gives a material an opacity between the
    values the script writes: after any ticks from the loaded page, in
    any order, the opacity of every mesh is 0, 0.6 or 1; the fades of the
    phases are steps, made by the callbacks, not interpolations. *)
Theorem opacity_is_never_interpolated (ks : list tick) (m : name) :
  is_mesh m = true ->
  opacity (get m (stage (play timeline ks loaded))) = Some 0 \/
  opacity (get m (stage (play timeline ks loaded))) = Some 0.6 \/
  opacity (get m (stage (play timeline ks loaded))) = Some 1.
Proof.
  intros Hm.
  pose proof (play_preserves stepped timeline ks timeline_keeps_stepped
                loaded stepped_initial) as H.
  unfold stepped in H.
  assert (Hin : In m all_names) by (destruct m; cbn; auto 10).
  pose proof (proj1 (List.Forall_forall _ _) H m Hin) as Hop.
  cbv beta in Hop. rewrite Hm in Hop. exact Hop.
Qed.

Lemma opacity_is_never_interpolated_witness :
  opacity (get n_glowPlane
             (stage (play timeline [Frame 2; Frame 0.1; Repeat; Frame 1.9]
                       loaded))) = Some 0 \/
  opacity (get n_glowPlane
             (stage (play timeline [Frame 2; Frame 0.1; Repeat; Frame 1.9]
                       loaded))) = Some 0.6 \/
  opacity (get n_glowPlane
             (stage (play timeline [Frame 2; Frame 0.1; Repeat; Frame 1.9]
                       loaded))) = Some 1.
Proof.
  apply (opacity_is_never_interpolated
           [Frame 2; Frame 0.1; Repeat; Frame 1.9] n_glowPlane).
  reflexivity.
Defined.

End TimelineProps.
